(** * database.py: query container, connection gateway and identity-cached models

    A shallow embedding of [database.py].  Python objects live in an explicit
    store, exceptions are the left summand of a state-and-error monad, and the
    psycopg2 driver is a parameter of the gateway section. *)

From Stdlib Require Import ZArith String Ascii List Bool Lia DecimalString.
From stdpp Require Import base option list gmap strings relations.

Local Open Scope string_scope.
Local Open Scope Z_scope.

(** ** Python values *)

(** The values that flow through the program: query arguments, row fields
    and attribute values.  Strings are sequences of characters with code
    points below 256, one [ascii] per character.  Dictionaries keep
    insertion order and have string keys (keyword-argument dictionaries).
    Floats, bytes and tuples are left out. *)
#[warnings="-register-all"]
Inductive Value : Type :=
| VNone
| VBool (b : bool)
| VInt (z : Z)
| VStr (s : string)
| VList (xs : list Value)
| VDict (kvs : list (string * Value)).

(** Exceptions raised by the program or coming up from the driver. *)
Inductive exn : Type :=
| ValueError (msg : string)
| KeyError (key : string)
| TypeError (msg : string)
| RuntimeError (msg : string)
| IndexError (msg : string)
| DriverError (code : string).

(** ** [repr] and [str] of values *)

Definition hex_digit (n : N) : ascii :=
  ascii_of_N (if (n <? 10)%N then 48 + n else 87 + n)%N.

Definition bslash : ascii := ascii_of_N 92.
Definition dquote : ascii := ascii_of_N 34.
Definition squote : ascii := ascii_of_N 39.

(** A character of a [str] is its code point: the strings of the model are
    the Python strings over U+0000..U+00FF.  Of these, [str.isprintable]
    rejects the controls U+0000..U+001F and U+007F..U+009F, the no-break
    space U+00A0 and the soft hyphen U+00AD. *)
Definition printable (n : N) : bool :=
  negb ((n <? 32)%N || ((127 <=? n)%N && (n <=? 160)%N) || (n =? 173)%N).

(** One character of [repr] of a [str] whose quote character is [q]: the
    quote and the backslash are escaped, tab, newline and carriage return
    have their letters, and any other character that is not printable is
    written as a two-digit hexadecimal escape. *)
Definition repr_char (q c : ascii) : string :=
  let n := N_of_ascii c in
  if Ascii.eqb c q || Ascii.eqb c bslash then String bslash (String c EmptyString)
  else if (n =? 9)%N then String bslash "t"
  else if (n =? 10)%N then String bslash "n"
  else if (n =? 13)%N then String bslash "r"
  else if negb (printable n)
  then String bslash (String "x"%char
         (String (hex_digit (n / 16)) (String (hex_digit (n mod 16)) EmptyString)))
  else String c EmptyString.

Fixpoint has_char (c : ascii) (s : string) : bool :=
  match s with
  | EmptyString => false
  | String d s' => Ascii.eqb c d || has_char c s'
  end.

Fixpoint repr_chars (q : ascii) (s : string) : string :=
  match s with
  | EmptyString => EmptyString
  | String c s' => repr_char q c ++ repr_chars q s'
  end.

(** [repr] of a [str]: double quotes only when the text has a single quote
    and no double quote. *)
Definition repr_str (s : string) : string :=
  let q := if has_char squote s && negb (has_char dquote s) then dquote else squote in
  String q (repr_chars q s ++ String q EmptyString).

Definition repr_int (z : Z) : string := NilZero.string_of_int (Z.to_int z).

Fixpoint join (sep : string) (xs : list string) : string :=
  match xs with
  | [] => EmptyString
  | [x] => x
  | x :: rest => x ++ sep ++ join sep rest
  end.

(** [repr(v)], without the limits the interpreter puts on the depth of the
    recursion and on the number of digits of an integer. *)
Fixpoint py_repr (v : Value) : string :=
  match v with
  | VNone => "None"
  | VBool true => "True"
  | VBool false => "False"
  | VInt z => repr_int z
  | VStr s => repr_str s
  | VList xs => "[" ++ join ", " (List.map py_repr xs) ++ "]"
  | VDict kvs =>
      "{" ++ join ", " (List.map (fun kv => repr_str (fst kv) ++ ": " ++ py_repr (snd kv)) kvs) ++ "}"
  end.

Definition py_str (v : Value) : string :=
  match v with
  | VStr s => s
  | _ => py_repr v
  end.

(** ** The [%] operator on a [str] template

    [template % operand] as CPython's formatter runs it, for templates whose
    conversions are [%s] and [%r], with or without a [%(key)] mapping key,
    and [%%].  Flags, widths, precisions and every other conversion character
    are not modelled, neither the ones CPython formats nor the ones it
    rejects (a [%] after a mapping key among them): a template that uses
    them formats to [None] here. *)

(** Where the scanner is inside the template. *)
Inductive fmt_mode : Type :=
| Literal
| AfterPercent
| InKey (depth : nat) (key : string)
| AfterKey.

(** A list, a dict or any other object with [__getitem__] is taken as the
    mapping of the template; tuples and strings are not. *)
Definition is_mapping (v : Value) : bool :=
  match v with
  | VList _ | VDict _ => true
  | _ => false
  end.

Fixpoint assoc_get (k : string) (kvs : list (string * Value)) : option Value :=
  match kvs with
  | [] => None
  | (k', v) :: rest => if String.eqb k k' then Some v else assoc_get k rest
  end.

(** [operand[key]] for a string [key]. *)
Definition mapping_getitem (operand : Value) (key : string) : exn + Value :=
  match operand with
  | VDict kvs =>
      match assoc_get key kvs with
      | Some v => inr v
      | None => inl (KeyError key)
      end
  | VList _ => inl (TypeError "list indices must be integers or slices, not str")
  | _ => inl (TypeError "format requires a mapping")
  end.

(** The formatter's state is the argument the next conversion takes
    ([arg]), whether that argument was taken already ([used]), and the text
    written so far.  A mapping key replaces [arg] by the value found and
    makes it available again. *)
Fixpoint format_from (operand : Value) (mode : fmt_mode) (arg : Value) (used : bool)
    (out : string) (template : string) : option (exn + string) :=
  match template with
  | EmptyString =>
      match mode with
      | Literal =>
          if negb used && negb (is_mapping operand)
          then Some (inl (TypeError "not all arguments converted during string formatting"))
          else Some (inr out)
      | InKey _ _ => Some (inl (ValueError "incomplete format key"))
      | AfterPercent | AfterKey => Some (inl (ValueError "incomplete format"))
      end
  | String c rest =>
      match mode with
      | Literal =>
          if Ascii.eqb c "%"%char
          then format_from operand AfterPercent arg used out rest
          else format_from operand Literal arg used (out ++ String c EmptyString) rest
      | InKey depth key =>
          if Ascii.eqb c ")"%char
          then match depth with
               | O =>
                   match mapping_getitem operand key with
                   | inl e => Some (inl e)
                   | inr v => format_from operand AfterKey v false out rest
                   end
               | S d => format_from operand (InKey d (key ++ String c EmptyString)) arg used out rest
               end
          else if Ascii.eqb c "("%char
          then format_from operand (InKey (S depth) (key ++ String c EmptyString)) arg used out rest
          else format_from operand (InKey depth (key ++ String c EmptyString)) arg used out rest
      | AfterPercent | AfterKey =>
          if Ascii.eqb c "("%char && match mode with AfterPercent => true | _ => false end
          then if is_mapping operand
               then format_from operand (InKey O EmptyString) arg used out rest
               else Some (inl (TypeError "format requires a mapping"))
          else if Ascii.eqb c "%"%char
          then match mode with
               | AfterPercent => format_from operand Literal arg used (out ++ "%") rest
               | _ => None
               end
          else if Ascii.eqb c "s"%char || Ascii.eqb c "r"%char
          then if used
               then Some (inl (TypeError "not enough arguments for format string"))
               else format_from operand Literal arg true
                      (out ++ (if Ascii.eqb c "s"%char then py_str arg else py_repr arg)) rest
          else None
      end
  end.

Definition py_format (template : string) (operand : Value) : option (exn + string) :=
  format_from operand Literal operand false EmptyString template.

(** ** Query *)

Record Query : Type := mkQuery {
  query_string : string;
  args : list Value
}.

(** Truth value of a sequence or dict: non-empty. *)
Definition truthy {A : Type} (xs : list A) : bool :=
  match xs with
  | [] => false
  | _ :: _ => true
  end.

(** Binding the keywords of a call: the first keyword, in the order of the
    call, that names a parameter which already has its positional value. *)
Fixpoint bound_twice (params : list string) (kwargs : list (string * Value)) : option string :=
  match kwargs with
  | [] => None
  | (name, _) :: rest =>
      if existsb (String.eqb name) params then Some name else bound_twice params rest
  end.

(** The error of such a call, worded as CPython 3.10 and later word it. *)
Definition multiple_values (function parameter : string) : exn :=
  TypeError (function ++ "() got multiple values for argument '" ++ parameter ++ "'").

(** [Query.__init__(self, query_string, *args, **kwargs)], called with
    the template in its position: a keyword named [self] or [query_string]
    cannot be bound. *)
Definition Query_init (query_string : string) (args : list Value)
    (kwargs : list (string * Value)) : exn + Query :=
  match bound_twice ["self"; "query_string"] kwargs with
  | Some parameter => inl (multiple_values "Query.__init__" parameter)
  | None =>
      if truthy args && truthy kwargs
      then inl (ValueError ("Both named and unnamed arguments passed to query: " ++ query_string))
      else if truthy kwargs
      then inr (mkQuery query_string [VDict kwargs])
      else inr (mkQuery query_string args)
  end.

(** The operand [Query.__repr__] builds for [%]: a dict of reprs when the
    only argument is a dict, a list of reprs otherwise. *)
Definition query_args (q : Query) : Value :=
  match args q with
  | [VDict kvs] => VDict (List.map (fun kv => (fst kv, VStr (py_repr (snd kv)))) kvs)
  | xs => VList (List.map (fun v => VStr (py_repr v)) xs)
  end.

(** [Query.__repr__(self)]. *)
Definition Query_repr (q : Query) : option (exn + string) :=
  py_format (query_string q) (query_args q).

(** ** Equality and hashing of dictionary keys *)

(** [x == y].  [True == 1] and [False == 0]; lists compare element by
    element, dicts key by key. *)
Fixpoint py_eq (x y : Value) {struct x} : bool :=
  match x, y with
  | VNone, VNone => true
  | VBool a, VBool b => Bool.eqb a b
  | VBool a, VInt z => Z.eqb (Z.b2z a) z
  | VInt z, VBool b => Z.eqb z (Z.b2z b)
  | VInt a, VInt b => Z.eqb a b
  | VStr a, VStr b => String.eqb a b
  | VList xs, VList ys =>
      (fix all2 (xs ys : list Value) : bool :=
         match xs, ys with
         | [], [] => true
         | x :: xs', y :: ys' => py_eq x y && all2 xs' ys'
         | _, _ => false
         end) xs ys
  | VDict a, VDict b =>
      Nat.eqb (length a) (length b)
      && forallb (fun kv => match assoc_get (fst kv) b with
                            | Some v' => py_eq (snd kv) v'
                            | None => false
                            end) a
  | _, _ => false
  end.

(** Equality of two key tuples. *)
Fixpoint tuple_eq (xs ys : list Value) : bool :=
  match xs, ys with
  | [], [] => true
  | x :: xs', y :: ys' => py_eq x y && tuple_eq xs' ys'
  | _, _ => false
  end.

(** [hash(v)] raises for lists and dicts. *)
Definition hash_error (v : Value) : option exn :=
  match v with
  | VList _ => Some (TypeError "unhashable type: 'list'")
  | VDict _ => Some (TypeError "unhashable type: 'dict'")
  | _ => None
  end.

(** Hashing a tuple hashes its items in order. *)
Fixpoint tuple_hash_error (key : list Value) : option exn :=
  match key with
  | [] => None
  | v :: rest =>
      match hash_error v with
      | Some e => Some e
      | None => tuple_hash_error rest
      end
  end.

(** ** State and exceptions *)

(** A computation over a state [S] that returns an [A] or raises. *)
Definition M (S A : Type) : Type := S -> (exn + A) * S.

Definition ret {S A : Type} (a : A) : M S A := fun s => (inr a, s).
Definition raise {S A : Type} (e : exn) : M S A := fun s => (inl e, s).
Definition bind {S A B : Type} (m : M S A) (k : A -> M S B) : M S B :=
  fun s =>
    match m s with
    | (inr a, s') => k a s'
    | (inl e, s') => (inl e, s')
    end.

Declare Scope py_scope.
Delimit Scope py_scope with py.
Notation "'let!' x ':=' m 'in' k" := (bind m (fun x => k))
  (at level 10, x pattern, m at level 100, k at level 200) : py_scope.
Notation "'run!' m 'in' k" := (bind m (fun _ => k))
  (at level 10, m at level 100, k at level 200) : py_scope.

(** ** Models: [Object] and its identity map *)

Module Model.

(** A reference to an instance: its position in the heap. *)
Abbreviation ref := nat.

(** An instance: its class and its [__dict__]. *)
Record instance : Type := mkInstance {
  inst_class : string;
  inst_dict : gmap string Value
}.

(** A model class, a direct subclass of [Object]: its name and its
    [primary_key] attribute ([None] in [Object] itself). *)
Record Class : Type := mkClass {
  cls_name : string;
  primary_key : option (list string)
}.

(** The part of the interpreter state the models use: the instances
    allocated so far and, per class, the [_instance_map] attribute.  A class
    without an entry still has [_instance_map = None]; a class with an entry
    owns a dict from key tuples to instances, kept in insertion order. *)
Record Store : Type := mkStore {
  heap : list instance;
  instance_maps : gmap string (list (list Value * ref))
}.

Definition empty_store : Store := mkStore [] ∅.

(** [cls._instance_map], with [None] read as a dict without entries. *)
Definition instance_map (c : Class) (s : Store) : list (list Value * ref) :=
  default [] (instance_maps s !! cls_name c).

(** [tuple(kwargs[column] for column in primary_key)]. *)
Fixpoint cache_key (pk : list string) (kwargs : gmap string Value) : exn + list Value :=
  match pk with
  | [] => inr []
  | column :: rest =>
      match kwargs !! column with
      | None => inl (KeyError column)
      | Some v =>
          match cache_key rest kwargs with
          | inl e => inl e
          | inr vs => inr (v :: vs)
          end
      end
  end.

(** The entry of a dict whose key equals [key]. *)
Fixpoint map_find (key : list Value) (m : list (list Value * ref)) : option ref :=
  match m with
  | [] => None
  | (k, r) :: rest => if tuple_eq key k then Some r else map_find key rest
  end.

(** [m.get(key)]: the key is hashed first, which may raise. *)
Definition map_get (key : list Value) (m : list (list Value * ref)) : exn + option ref :=
  match tuple_hash_error key with
  | Some e => inl e
  | None => inr (map_find key m)
  end.

Local Open Scope py_scope.

(** [object.__new__(cls)]: a fresh instance with an empty [__dict__]. *)
Definition allocate (c : Class) : M Store ref :=
  fun s =>
    (inr (length (heap s)),
     mkStore (heap s ++ [mkInstance (cls_name c) ∅])%list (instance_maps s)).

(** [if cls._instance_map is None: cls._instance_map = {}]. *)
Definition with_instance_map (c : Class) (s : Store) : Store :=
  match instance_maps s !! cls_name c with
  | None => mkStore (heap s) (<[cls_name c := []]> (instance_maps s))
  | Some _ => s
  end.

Definition ensure_instance_map (c : Class) : M Store unit :=
  fun s => (inr tt, with_instance_map c s).

(** Binding the keywords of a call to a method whose first parameter has
    its value already: a keyword of that name cannot be bound. *)
Definition bind_keywords (function parameter : string) (kwargs : gmap string Value)
    : M Store unit :=
  match kwargs !! parameter with
  | Some _ => raise (multiple_values function parameter)
  | None => ret tt
  end.

(** The body of [Object.__new__]. *)
Definition new_or_cached (c : Class) (kwargs : gmap string Value) : M Store ref :=
  match primary_key c with
  | None => allocate c
  | Some pk =>
      run! ensure_instance_map c in
      let! key := (fun s => (cache_key pk kwargs, s)) in
      let! found := (fun s => (map_get key (instance_map c s), s)) in
      match found with
      | Some obj => ret obj
      | None =>
          let! obj := allocate c in
          run! (fun s =>
                  (inr tt,
                   mkStore (heap s)
                     (<[cls_name c := (instance_map c s ++ [(key, obj)])%list]> (instance_maps s)))) in
          ret obj
      end
  end.

(** [self.__dict__.update(kwargs)]: the given attributes take precedence
    over the ones already there. *)
Definition dict_update (self : ref) (kwargs : gmap string Value) : M Store unit :=
  fun s =>
    (inr tt,
     mkStore (alter (fun o => mkInstance (inst_class o) (kwargs ∪ inst_dict o)) self (heap s))
       (instance_maps s)).

(** [Object.__new__(cls, **kwargs)]: a keyword named [cls] raises before
    the body runs. *)
Definition Object_new (c : Class) (kwargs : gmap string Value) : M Store ref :=
  run! bind_keywords "Object.__new__" "cls" kwargs in
  new_or_cached c kwargs.

(** [Object.__init__(self, **kwargs)]: a keyword named [self] raises. *)
Definition Object_init (self : ref) (kwargs : gmap string Value) : M Store unit :=
  run! bind_keywords "Object.__init__" "self" kwargs in
  dict_update self kwargs.

(** [Object.update(self, **kwargs)]: a keyword named [self] raises. *)
Definition Object_update (self : ref) (kwargs : gmap string Value) : M Store unit :=
  run! bind_keywords "Object.update" "self" kwargs in
  dict_update self kwargs.

(** Calling the class with keyword arguments: [__new__], then [__init__]
    on what it returned, which is an instance of the class.  When
    [__init__] cannot bind its keywords, [__new__] has run already. *)
Definition construct (c : Class) (kwargs : gmap string Value) : M Store ref :=
  let! obj := Object_new c kwargs in
  run! Object_init obj kwargs in
  ret obj.

(** [obj.name], when the instance has the attribute. *)
Definition getattr (s : Store) (obj : ref) (name : string) : option Value :=
  o ← heap s !! obj; inst_dict o !! name.

(** What the program can do to the store between two constructions:
    construct an instance of any model from any attributes, whether that
    succeeds or raises, and update any instance. *)
Inductive step : Store -> Store -> Prop :=
| step_construct c kwargs res s s' :
    construct c kwargs s = (res, s') -> step s s'
| step_update obj kwargs res s s' :
    Object_update obj kwargs s = (res, s') -> step s s'.

(** The models of the script. *)
Definition Options : Class := mkClass "Options" (Some ["name"]).
Definition UserTablesStats : Class := mkClass "UserTablesStats" None.
Definition RandomCoordinates : Class := mkClass "RandomCoordinates" (Some ["x"; "y"]).

(** Keyword arguments, written as the call site lists them. *)
Definition kwargs_of (items : list (string * Value)) : gmap string Value :=
  list_to_map items.

End Model.

(** ** The connection gateway: [Database] *)

Module Gateway.

(** An item of [cursor.description]. *)
Record Column : Type := mkColumn {
  name : string;
  type_code : Z
}.

(** A call into the driver: it returns or raises a driver error, and may
    change the state of the SQL engine. *)
Definition call (World A : Type) : Type := World -> (string + A) * World.

(** What the gateway needs from psycopg2. *)
Record Driver (World Conn Cursor : Type) : Type := mkDriver {
  connect : forall (database user password host port : Value), call World Conn;
  conn_cursor : Conn -> call World Cursor;
  conn_commit : Conn -> call World unit;
  conn_rollback : Conn -> call World unit;
  cursor_execute : Cursor -> string -> list Value -> call World unit;
  cursor_fetchone : Cursor -> call World (option (list Value));
  cursor_fetchall : Cursor -> call World (list (list Value));
  cursor_description : Cursor -> World -> list Column
}.

Arguments connect {World Conn Cursor}.
Arguments conn_cursor {World Conn Cursor}.
Arguments conn_commit {World Conn Cursor}.
Arguments conn_rollback {World Conn Cursor}.
Arguments cursor_execute {World Conn Cursor}.
Arguments cursor_fetchone {World Conn Cursor}.
Arguments cursor_fetchall {World Conn Cursor}.
Arguments cursor_description {World Conn Cursor}.

(** The attributes of the one [Database] instance: [Database] is a
    [Singleton], so every [Database()] is the same object, and the class
    attributes [None] are what it reads until [initialize] assigns. *)
Record Database (Conn : Type) : Type := mkDatabase {
  database : Value;
  user : Value;
  _connection : option Conn
}.

Arguments mkDatabase {Conn}.
Arguments database {Conn}.
Arguments user {Conn}.
Arguments _connection {Conn}.

(** The gateway together with the engine it talks to. *)
Record State (World Conn : Type) : Type := mkState {
  db : Database Conn;
  world : World
}.

Arguments mkState {World Conn}.
Arguments db {World Conn}.
Arguments world {World Conn}.

(** A decoded row. *)
Abbreviation Record_ := (gmap string Value).

(** [{name: value for name, value in zip(names, row)}]: a later pair
    replaces an earlier one with the same name. *)
Definition named_row (names : list string) (row : list Value) : Record_ :=
  fold_left (fun m nv => <[fst nv := snd nv]> m) (zip names row) ∅.

(** [Database._populate_rows_with_names(self, rows, names)]. *)
Definition _populate_rows_with_names (rows : list (list Value)) (names : list string)
    : list Record_ :=
  List.map (named_row names) rows.

Section WithDriver.

Context {World Conn Cursor : Type}.
Variable drv : Driver World Conn Cursor.

Local Open Scope py_scope.

Abbreviation St := (State World Conn).

(** The class attributes: no connection yet. *)
Definition fresh_database : Database Conn := mkDatabase VNone VNone None.

(** Runs a driver call on the engine. *)
Definition lift {A : Type} (f : call World A) : M St A :=
  fun s =>
    match f (world s) with
    | (inl code, w) => (inl (DriverError code), mkState (db s) w)
    | (inr a, w) => (inr a, mkState (db s) w)
    end.

(** [Database._get_connection(self)]. *)
Definition _get_connection : M St Conn :=
  fun s =>
    match _connection (db s) with
    | None => (inl (RuntimeError "No database connection"), s)
    | Some c => (inr c, s)
    end.

(** [Database.initialize(self, database, user, password, host, port)]. *)
Definition initialize (database user password host port : Value) : M St unit :=
  fun s =>
    match _connection (db s) with
    | Some _ => (inl (RuntimeError "Database connection already exists"), s)
    | None =>
        (let! c := lift (connect drv database user password host port) in
         fun s' => (inr tt, mkState (mkDatabase database user (Some c)) (world s'))) s
    end.

(** [Database.commit(self)]. *)
Definition commit : M St unit :=
  let! c := _get_connection in lift (conn_commit drv c).

(** [Database.rollback(self)]. *)
Definition rollback : M St unit :=
  fun s =>
    match _connection (db s) with
    | Some c => lift (conn_rollback drv c) s
    | None => (inr tt, s)
    end.

(** [Database._get_cursor_for_query(self, query)]. *)
Definition _get_cursor_for_query (query : Query) : M St Cursor :=
  let! c := _get_connection in
  let! cursor := lift (conn_cursor drv c) in
  run! lift (cursor_execute drv cursor (query_string query) (args query)) in
  ret cursor.

(** [Database.execute(self, query)]. *)
Definition execute (query : Query) : M St Cursor :=
  _get_cursor_for_query query.

(** [Database._get_column_names_from_cursor(self, cursor)]. *)
Definition _get_column_names_from_cursor (cursor : Cursor) : M St (list string) :=
  fun s => (inr (List.map name (cursor_description drv cursor (world s))), s).

(** [Database.get_one(self, query)]; [None] is Python's [None]. *)
Definition get_one (query : Query) : M St (option Record_) :=
  let! cursor := _get_cursor_for_query query in
  let! row := lift (cursor_fetchone drv cursor) in
  match row with
  | None => ret None
  | Some row =>
      let! names := _get_column_names_from_cursor cursor in
      match _populate_rows_with_names [row] names with
      | first :: _ => ret (Some first)
      | [] => raise (IndexError "list index out of range")
      end
  end.

(** [Database.get_all(self, query)]. *)
Definition get_all (query : Query) : M St (list Record_) :=
  let! cursor := _get_cursor_for_query query in
  let! rows := lift (cursor_fetchall drv cursor) in
  let! names := _get_column_names_from_cursor cursor in
  ret (_populate_rows_with_names rows names).

End WithDriver.

(** *** A driver with canned answers

    An engine that is reachable or not and that answers every statement
    with the same rows. *)
Record canned_world : Type := mkCanned {
  reachable : bool;
  result_columns : list Column;
  result_rows : list (list Value)
}.

Definition canned_driver : Driver canned_world unit unit := {|
  connect := fun _ _ _ _ _ w =>
    if reachable w then (inr tt, w) else (inl "could not connect to server", w);
  conn_cursor := fun _ w => (inr tt, w);
  conn_commit := fun _ w => (inr tt, w);
  conn_rollback := fun _ w => (inr tt, w);
  cursor_execute := fun _ _ _ w => (inr tt, w);
  cursor_fetchone := fun _ w =>
    match result_rows w with
    | [] => (inr None, w)
    | row :: rest => (inr (Some row), mkCanned (reachable w) (result_columns w) rest)
    end;
  cursor_fetchall := fun _ w =>
    (inr (result_rows w), mkCanned (reachable w) (result_columns w) []);
  cursor_description := fun _ w => result_columns w
|}.

(** The [options] table with one row, on an engine that is up or down. *)
Definition options_world (up : bool) : canned_world :=
  mkCanned up [mkColumn "name" 25; mkColumn "value" 25] [[VStr "first"; VStr "one"]].

(** The gateway before [initialize], and after it succeeded. *)
Definition unconnected (w : canned_world) : State canned_world unit :=
  mkState fresh_database w.
Definition connected (w : canned_world) : State canned_world unit :=
  mkState (mkDatabase (VStr "database") (VStr "user") (Some tt)) w.

End Gateway.

(** ** What decoding a row means *)

Module RowDecoding.

Local Open Scope nat_scope.

(** [record] is the row [fields] under the column names [names]: it has a
    name exactly when the name stands at a position that has a field, and
    the value of a name is the field at the last such position. *)
Definition decoded (names : list string) (fields : list Value)
    (record : gmap string Value) : Prop :=
  (forall n, is_Some (record !! n)
             <-> exists j v, names !! j = Some n /\ fields !! j = Some v)
  /\ (forall i n v,
        names !! i = Some n -> fields !! i = Some v ->
        (forall j, i < j -> names !! j = Some n -> fields !! j = None) ->
        record !! n = Some v).

End RowDecoding.

(** ** Templates with named placeholders

    The templates of the script are runs of plain text separated by
    [%(key)s] placeholders. *)

(** The template with the text and placeholder of each segment in turn,
    then [tail]. *)
Definition named_template (segments : list (string * string)) (tail : string) : string :=
  fold_right (fun seg rest => fst seg ++ "%(" ++ snd seg ++ ")s" ++ rest) tail segments.

(** The same text with the [repr] of the argument in place of each
    placeholder, when every key has an argument. *)
Fixpoint named_rendering (kwargs : list (string * Value)) (segments : list (string * string))
    (tail : string) : option string :=
  match segments with
  | [] => Some tail
  | (text, key) :: rest =>
      match assoc_get key kwargs, named_rendering kwargs rest tail with
      | Some v, Some r => Some (text ++ py_repr v ++ r)
      | _, _ => None
      end
  end.

(** A key of a placeholder: text without parentheses. *)
Definition plain_key (key : string) : bool :=
  negb (has_char "("%char key) && negb (has_char ")"%char key).

(** Text without a [%]. *)
Definition plain_text (text : string) : bool := negb (has_char "%"%char text).

(** ** Well-formed stores *)

Module StoreInvariant.
Import Model.

(** Every entry of an identity map leads to a live instance of the class
    that owns the map. *)
Definition entries_live (s : Store) : Prop :=
  forall c key r, In (key, r) (instance_map c s) ->
    exists o, heap s !! r = Some o /\ inst_class o = cls_name c.

(** No two entries of an identity map lead to the same instance. *)
Definition entries_distinct (s : Store) : Prop :=
  forall c, List.NoDup (List.map snd (instance_map c s)).

Definition well_formed (s : Store) : Prop := entries_live s /\ entries_distinct s.

End StoreInvariant.

(** ** The models of the script and their queries *)

Module Script.
Import Model Gateway.

(** What a method of a model can raise: an exception of the layers below,
    or [AttributeError] for an attribute the instance does not have. *)
Inductive failure : Type :=
| Raised (e : exn)
| AttributeError (attribute : string).

(** The state of the script: the instances and identity maps, and the
    gateway with its engine. *)
Record Program (World Conn : Type) : Type := mkProgram {
  objects : Store;
  gateway : State World Conn
}.

Arguments mkProgram {World Conn}.
Arguments objects {World Conn}.
Arguments gateway {World Conn}.

(** A point, with the integer coordinates [main] gives it. *)
Record Point : Type := mkPoint {
  x : Z;
  y : Z
}.

(** The list comprehension that calls the class on each record in turn. *)
Fixpoint construct_each (c : Class) (infos : list (gmap string Value)) : M Store (list ref) :=
  match infos with
  | [] => ret []
  | info :: rest =>
      bind (construct c info) (fun obj =>
      bind (construct_each c rest) (fun objs => ret (obj :: objs)))
  end.

Section WithDriver.

Context {World Conn Cursor : Type}.
Variable drv : Driver World Conn Cursor.

Abbreviation Prog := (Program World Conn).

(** A method: it returns or fails, and may change the program. *)
Definition P (A : Type) : Type := Prog -> (failure + A) * Prog.

Definition pure {A : Type} (a : A) : P A := fun p => (inr a, p).
Definition fail {A : Type} (f : failure) : P A := fun p => (inl f, p).
Definition and_then {A B : Type} (m : P A) (k : A -> P B) : P B :=
  fun p =>
    match m p with
    | (inr a, p') => k a p'
    | (inl f, p') => (inl f, p')
    end.

(** Runs a computation of the model layer on the instances. *)
Definition on_objects {A : Type} (m : M Store A) : P A :=
  fun p =>
    match m (objects p) with
    | (inl e, st) => (inl (Raised e), mkProgram st (gateway p))
    | (inr a, st) => (inr a, mkProgram st (gateway p))
    end.

(** Runs a method of [Database()] on the gateway. *)
Definition on_gateway {A : Type} (m : M (State World Conn) A) : P A :=
  fun p =>
    match m (gateway p) with
    | (inl e, g) => (inl (Raised e), mkProgram (objects p) g)
    | (inr a, g) => (inr a, mkProgram (objects p) g)
    end.

Definition of_result {A : Type} (r : exn + A) : P A :=
  match r with
  | inl e => fail (Raised e)
  | inr a => pure a
  end.

(** [self.name]. *)
Definition attribute (self : ref) (name : string) : P Value :=
  fun p =>
    match getattr (objects p) self name with
    | Some v => (inr v, p)
    | None => (inl (AttributeError name), p)
    end.

(** The [**info] of a call: [None] is not a mapping. *)
Definition unpack (info : option (gmap string Value)) : P (gmap string Value) :=
  match info with
  | Some kwargs => pure kwargs
  | None => fail (Raised (TypeError "argument after ** must be a mapping, not NoneType"))
  end.

(** [for query in queries: Database().execute(query)]. *)
Fixpoint execute_each (queries : list Query) : P unit :=
  match queries with
  | [] => pure tt
  | query :: rest =>
      and_then (on_gateway (execute drv query)) (fun _ => execute_each rest)
  end.

(** [Options.get_all_options(cls)]. *)
Definition Options_get_all_options : P (list ref) :=
  and_then (of_result (Query_init "SELECT * FROM options ORDER BY LOWER(name)" [] []))
    (fun query =>
  and_then (on_gateway (get_all drv query)) (fun options_info =>
  on_objects (construct_each Options options_info))).

(** [Options.get_option(cls, name)]; [None] when the method falls off its
    end. *)
Definition Options_get_option (name : Value) : P (option ref) :=
  and_then (of_result (Query_init "SELECT * FROM options WHERE name = %(name)s" []
                         [("name", name)])) (fun query =>
  and_then (on_gateway (get_one drv query)) (fun option_info =>
  match option_info with
  | Some info =>
      if decide (info = ∅) then pure None
      else and_then (on_objects (construct Options info)) (fun obj => pure (Some obj))
  | None => pure None
  end)).

(** [Options.add_option(cls, name, value)]. *)
Definition Options_add_option (name value : Value) : P ref :=
  and_then (of_result
              (Query_init
                 "INSERT INTO options (name, value) VALUES (%(name)s, %(value)s) RETURNING *"
                 [] [("name", name); ("value", value)])) (fun query =>
  and_then (on_gateway (get_one drv query)) (fun option_info =>
  and_then (unpack option_info) (fun info =>
  on_objects (construct Options info)))).

(** [Options.update(self, value)]. *)
Definition Options_update (self : ref) (value : Value) : P unit :=
  and_then (attribute self "name") (fun name =>
  and_then (of_result
              (Query_init
                 "UPDATE options SET value = %(value)s WHERE name = %(name)s RETURNING *"
                 [] [("name", name); ("value", value)])) (fun query =>
  and_then (on_gateway (get_one drv query)) (fun option_info =>
  and_then (unpack option_info) (fun info =>
  on_objects (Object_update self info))))).

(** The statements of [Options.create_demo_table]. *)
Definition demo_statements : list (exn + Query) :=
  [ Query_init "CREATE TABLE options (name TEXT NOT NULL PRIMARY KEY, value TEXT NOT NULL)"
      [] [];
    Query_init "INSERT INTO options (name, value) VALUES (%(name)s, %(value)s)" []
      [("name", VStr "first"); ("value", VStr "one")];
    Query_init "INSERT INTO options (name, value) VALUES (%(name)s, %(value)s)" []
      [("name", VStr "second"); ("value", VStr "two")];
    Query_init "INSERT INTO options (name, value) VALUES (%(name)s, %(value)s)" []
      [("name", VStr "third"); ("value", VStr "three")];
    Query_init "INSERT INTO options (name, value) VALUES (%(name)s, %(value)s)" []
      [("name", VStr "forth"); ("value", VStr "four")] ].

(** The list [queries] is built first, then run. *)
Fixpoint all_results {A : Type} (rs : list (exn + A)) : exn + list A :=
  match rs with
  | [] => inr []
  | inl e :: _ => inl e
  | inr a :: rest =>
      match all_results rest with
      | inl e => inl e
      | inr xs => inr (a :: xs)
      end
  end.

(** [Options.create_demo_table(cls)]. *)
Definition Options_create_demo_table : P unit :=
  and_then (of_result (all_results demo_statements)) execute_each.

(** [Options.destroy_demo_table(cls)]. *)
Definition Options_destroy_demo_table : P unit :=
  and_then (of_result (Query_init "DROP TABLE options" [] [])) (fun query =>
  and_then (on_gateway (execute drv query)) (fun _ => pure tt)).

(** [UserTablesStats.get_stats(cls)]. *)
Definition UserTablesStats_get_stats : P (list ref) :=
  and_then (of_result
              (Query_init
                 "SELECT schemaname AS schema, relname AS table, seq_scan, idx_scan, now() as timestamp FROM pg_stat_user_tables"
                 [] [])) (fun query =>
  and_then (on_gateway (get_all drv query)) (fun stats_info =>
  on_objects (construct_each UserTablesStats stats_info))).

(** The query of [RandomCoordinates.pick]. *)
Definition pick_query (point1 point2 : Point) : exn + Query :=
  let min_x := Z.min (x point1) (x point2) in
  let min_y := Z.min (y point1) (y point2) in
  let max_x := Z.max (x point1) (x point2) in
  let max_y := Z.max (y point1) (y point2) in
  Query_init
    "SELECT (RANDOM() * %(width)s + %(min_x)s)::int AS x, (RANDOM() * %(height)s + %(min_y)s)::int AS y;"
    []
    [("width", VInt (max_x - min_x)); ("height", VInt (max_y - min_y));
     ("min_x", VInt min_x); ("min_y", VInt min_y)].

(** [RandomCoordinates.pick(cls, point1, point2)]. *)
Definition RandomCoordinates_pick (point1 point2 : Point) : P ref :=
  and_then (of_result (pick_query point1 point2)) (fun query =>
  and_then (on_gateway (get_one drv query)) (fun coordinates_info =>
  and_then (unpack coordinates_info) (fun info =>
  on_objects (construct RandomCoordinates info)))).

End WithDriver.

End Script.

(** * Properties *)

(** ** Query *)

Section QueryFacts.

Lemma truthy_nil_iff {A : Type} (xs : list A) : truthy xs = false <-> xs = [].
Proof. destruct xs; simpl; split; congruence. Qed.




(** C5: the rendering of
    [Query('SELECT * FROM t WHERE name = %(name)s', name='x')] is
    [SELECT * FROM t WHERE name = 'x']. *)
Theorem Query_repr_named_example :
  exists q,
    Query_init "SELECT * FROM t WHERE name = %(name)s" [] [("name", VStr "x")] = inr q
    /\ Query_repr q = Some (inr "SELECT * FROM t WHERE name = 'x'").
Proof. eexists. split; [reflexivity|]. vm_compute. reflexivity. Qed.

(** C3: with positional arguments the rendering does not substitute by
    position.  The operand of [%] is a list, which counts as one argument:
    a template with two [%s] raises [TypeError], and a template with a single
    [%s] receives the text of the whole list. *)
Theorem Query_repr_positional_diverges :
  (exists q,
     Query_init "SELECT * FROM t WHERE a = %s AND b = %s" [VInt 1; VInt 2] [] = inr q
     /\ Query_repr q = Some (inl (TypeError "not enough arguments for format string")))
  /\ (exists q,
        Query_init "SELECT * FROM t WHERE a = %s" [VInt 1] [] = inr q
        /\ Query_repr q = Some (inr "SELECT * FROM t WHERE a = ['1']")).
Proof.
  split; eexists; (split; [reflexivity|]); vm_compute; reflexivity.
Qed.

End QueryFacts.

(** ** Models *)

Module ModelFacts.
Import Model.

Local Open Scope nat_scope.
Local Open Scope list_scope.

(** *** Keys *)

Lemma py_eq_refl_hashable (v : Value) : hash_error v = None -> py_eq v v = true.
Proof.
  destruct v as [|b|z|s|xs|kvs]; simpl; try discriminate; intros _.
  - reflexivity.
  - destruct b; reflexivity.
  - apply Z.eqb_refl.
  - apply String.eqb_refl.
Qed.

Lemma tuple_eq_refl (key : list Value) :
  tuple_hash_error key = None -> tuple_eq key key = true.
Proof.
  induction key as [|v key IH]; simpl; [reflexivity|].
  destruct (hash_error v) eqn:Hv; [discriminate|].
  intros Hk. rewrite (py_eq_refl_hashable v Hv). simpl. auto.
Qed.

Lemma map_find_app_Some key m m' r :
  map_find key m = Some r -> map_find key (m ++ m') = Some r.
Proof.
  induction m as [|[k r0] m IH]; simpl; [discriminate|].
  destruct (tuple_eq key k); auto.
Qed.

Lemma map_find_app_None key m m' :
  map_find key m = None -> map_find key (m ++ m') = map_find key m'.
Proof.
  induction m as [|[k r0] m IH]; simpl; [reflexivity|].
  destruct (tuple_eq key k); [discriminate|auto].
Qed.

Lemma map_get_Some key m r :
  map_get key m = inr (Some r) <-> tuple_hash_error key = None /\ map_find key m = Some r.
Proof.
  unfold map_get. destruct (tuple_hash_error key); split.
  - discriminate.
  - intros [? _]; discriminate.
  - intros [= ->]. auto.
  - intros [_ ->]. reflexivity.
Qed.

Lemma cache_key_missing (pk : list string) (kwargs : gmap string Value) :
  (exists column, In column pk /\ kwargs !! column = None) ->
  exists column,
    cache_key pk kwargs = inl (KeyError column) /\ In column pk /\ kwargs !! column = None.
Proof.
  induction pk as [|col pk IH]; intros (column & Hin & Hnone); [destruct Hin|].
  simpl. destruct (kwargs !! col) as [v|] eqn:Hcol.
  - destruct Hin as [-> | Hin]; [congruence|].
    destruct IH as (column' & Hk & Hin' & Hnone'); [eauto|].
    exists column'. rewrite Hk. auto.
  - exists col. auto.
Qed.

Lemma cache_key_complete (pk : list string) (kwargs : gmap string Value) key :
  cache_key pk kwargs = inr key -> Forall (fun column => is_Some (kwargs !! column)) pk.
Proof.
  revert key. induction pk as [|col pk IH]; intros key; simpl; [constructor|].
  destruct (kwargs !! col) eqn:Hcol; [|discriminate].
  destruct (cache_key pk kwargs) eqn:Hk; [discriminate|].
  intros _. constructor; eauto.
Qed.

(** Keys that Python compares equal find the same entries. *)
Lemma py_eq_hashable_l (b a : Value) :
  hash_error a = None -> py_eq b a = true -> hash_error b = None.
Proof. destruct b, a; simpl; congruence. Qed.

Lemma py_eq_congr (a b k : Value) :
  hash_error a = None -> hash_error b = None ->
  py_eq b a = true -> py_eq b k = py_eq a k.
Proof.
  destruct a as [|x|x|x|x|x], b as [|y|y|y|y|y]; simpl; try discriminate; intros _ _;
    rewrite ?Z.eqb_eq, ?String.eqb_eq, ?Bool.eqb_true_iff; intros; subst;
    try reflexivity; destruct k; try reflexivity;
    repeat match goal with v : bool |- _ => destruct v end;
    simpl in *; try reflexivity; try discriminate; try lia.
Qed.

Lemma tuple_eq_hashable_l (kb ka : list Value) :
  tuple_hash_error ka = None -> tuple_eq kb ka = true -> tuple_hash_error kb = None.
Proof.
  revert ka. induction kb as [|b kb IH]; intros [|a ka]; simpl; try discriminate;
    [reflexivity|].
  destruct (hash_error a) eqn:Ha; [discriminate|].
  intros Hka. rewrite andb_true_iff. intros [Hba Hrest].
  rewrite (py_eq_hashable_l b a Ha Hba). exact (IH ka Hka Hrest).
Qed.

Lemma tuple_eq_congr (ka kb k : list Value) :
  tuple_hash_error ka = None -> tuple_eq kb ka = true -> tuple_eq kb k = tuple_eq ka k.
Proof.
  revert ka k. induction kb as [|b kb IH]; intros [|a ka] [|x k]; simpl;
    try discriminate; try reflexivity.
  destruct (hash_error a) eqn:Ha; [discriminate|].
  intros Hka. rewrite andb_true_iff. intros [Hba Hrest].
  rewrite (py_eq_congr a b x Ha (py_eq_hashable_l b a Ha Hba) Hba).
  rewrite (IH ka k Hka Hrest). reflexivity.
Qed.

Lemma map_find_congr ka kb m :
  tuple_hash_error ka = None -> tuple_eq kb ka = true -> map_find kb m = map_find ka m.
Proof.
  intros Hka Heq. induction m as [|[k r] m IH]; simpl; [reflexivity|].
  rewrite (tuple_eq_congr ka kb k Hka Heq), IH. reflexivity.
Qed.

(** *** The store under [__new__], [__init__] and [update] *)

Lemma with_instance_map_heap c s : heap (with_instance_map c s) = heap s.
Proof. unfold with_instance_map. destruct (instance_maps s !! cls_name c); reflexivity. Qed.

Lemma with_instance_map_entries c c' s :
  instance_map c' (with_instance_map c s) = instance_map c' s.
Proof.
  unfold with_instance_map, instance_map.
  destruct (instance_maps s !! cls_name c) eqn:Hm; [reflexivity|]. simpl.
  destruct (decide (cls_name c = cls_name c')) as [Heq|Hne].
  - rewrite <- Heq, lookup_insert_eq, Hm. reflexivity.
  - rewrite lookup_insert_ne by exact Hne. reflexivity.
Qed.

(** The entries of every class after a new entry went into the dict of [c]. *)
Lemma instance_map_insert c c' s h m :
  instance_map c' (mkStore h (<[cls_name c := m]> (instance_maps s)))
  = if decide (cls_name c = cls_name c') then m else instance_map c' s.
Proof.
  unfold instance_map. simpl. case_decide as Heq.
  - rewrite <- Heq, lookup_insert_eq. reflexivity.
  - rewrite lookup_insert_ne by exact Heq. reflexivity.
Qed.

(** A call whose keywords bind runs the body; a call with a keyword of the
    name of the first parameter raises and changes nothing. *)
Lemma Object_new_bound c kwargs s :
  kwargs !! "cls" = None -> Object_new c kwargs s = new_or_cached c kwargs s.
Proof.
  intros H. unfold Object_new, bind, bind_keywords. rewrite H. reflexivity.
Qed.

Lemma Object_new_unbound c kwargs s v :
  kwargs !! "cls" = Some v ->
  Object_new c kwargs s = (inl (multiple_values "Object.__new__" "cls"), s).
Proof.
  intros H. unfold Object_new, bind, bind_keywords. rewrite H. reflexivity.
Qed.

Lemma Object_init_bound obj kwargs s :
  kwargs !! "self" = None -> Object_init obj kwargs s = dict_update obj kwargs s.
Proof.
  intros H. unfold Object_init, bind, bind_keywords. rewrite H. reflexivity.
Qed.

Lemma Object_init_unbound obj kwargs s v :
  kwargs !! "self" = Some v ->
  Object_init obj kwargs s = (inl (multiple_values "Object.__init__" "self"), s).
Proof.
  intros H. unfold Object_init, bind, bind_keywords. rewrite H. reflexivity.
Qed.

Lemma Object_update_bound obj kwargs s :
  kwargs !! "self" = None -> Object_update obj kwargs s = dict_update obj kwargs s.
Proof.
  intros H. unfold Object_update, bind, bind_keywords. rewrite H. reflexivity.
Qed.

Lemma Object_update_unbound obj kwargs s v :
  kwargs !! "self" = Some v ->
  Object_update obj kwargs s = (inl (multiple_values "Object.update" "self"), s).
Proof.
  intros H. unfold Object_update, bind, bind_keywords. rewrite H. reflexivity.
Qed.

(** [__init__] and [update] either leave the store alone or run
    [__dict__.update]. *)
Lemma Object_init_cases obj kwargs s res s' :
  Object_init obj kwargs s = (res, s') ->
  s' = s \/ dict_update obj kwargs s = (res, s').
Proof.
  destruct (kwargs !! "self") as [v|] eqn:H.
  - rewrite (Object_init_unbound _ _ _ v H). intros [= _ <-]. left. reflexivity.
  - rewrite (Object_init_bound _ _ _ H). auto.
Qed.

Lemma Object_update_cases obj kwargs s res s' :
  Object_update obj kwargs s = (res, s') ->
  s' = s \/ dict_update obj kwargs s = (res, s').
Proof.
  destruct (kwargs !! "self") as [v|] eqn:H.
  - rewrite (Object_update_unbound _ _ _ v H). intros [= _ <-]. left. reflexivity.
  - rewrite (Object_update_bound _ _ _ H). auto.
Qed.

(** [__new__] on a class with a primary key, case by case. *)
Lemma Object_new_keyed c pk kwargs s :
  primary_key c = Some pk ->
  kwargs !! "cls" = None ->
  Object_new c kwargs s =
  let s0 := with_instance_map c s in
  match cache_key pk kwargs with
  | inl e => (inl e, s0)
  | inr key =>
      match map_get key (instance_map c s) with
      | inl e => (inl e, s0)
      | inr (Some obj) => (inr obj, s0)
      | inr None =>
          (inr (length (heap s)),
           mkStore (heap s ++ [mkInstance (cls_name c) ∅])
             (<[cls_name c := instance_map c s ++ [(key, length (heap s))]]>
                (instance_maps s0)))
      end
  end.
Proof.
  intros Hpk Hcls. rewrite (Object_new_bound c kwargs s Hcls).
  unfold new_or_cached. rewrite Hpk. unfold bind at 1, ensure_instance_map.
  cbn zeta. unfold bind at 1.
  destruct (cache_key pk kwargs) as [e|key]; [reflexivity|].
  unfold bind at 1. rewrite with_instance_map_entries.
  destruct (map_get key (instance_map c s)) as [e|[obj|]]; [reflexivity|reflexivity|].
  unfold bind, allocate, ret. simpl.
  rewrite with_instance_map_heap.
  unfold instance_map at 1. simpl. fold (instance_map c (with_instance_map c s)).
  rewrite with_instance_map_entries. reflexivity.
Qed.

Lemma Object_new_unkeyed c kwargs s :
  primary_key c = None ->
  kwargs !! "cls" = None ->
  Object_new c kwargs s
  = (inr (length (heap s)),
     mkStore (heap s ++ [mkInstance (cls_name c) ∅]) (instance_maps s)).
Proof.
  intros Hpk Hcls. rewrite (Object_new_bound c kwargs s Hcls).
  unfold new_or_cached. rewrite Hpk. reflexivity.
Qed.

Lemma dict_update_heap obj kwargs s :
  dict_update obj kwargs s
  = (inr tt,
     mkStore (alter (fun o => mkInstance (inst_class o) (kwargs ∪ inst_dict o)) obj (heap s))
       (instance_maps s)).
Proof. reflexivity. Qed.

Lemma dict_update_entries obj kwargs s res s' c :
  dict_update obj kwargs s = (res, s') -> instance_map c s' = instance_map c s.
Proof. rewrite dict_update_heap. intros [= _ <-]. reflexivity. Qed.

Lemma Object_init_entries obj kwargs s res s' c :
  Object_init obj kwargs s = (res, s') -> instance_map c s' = instance_map c s.
Proof.
  intros H. destruct (Object_init_cases _ _ _ _ _ H) as [-> | Hupd]; [reflexivity|].
  exact (dict_update_entries _ _ _ _ _ c Hupd).
Qed.

Lemma Object_update_entries obj kwargs s res s' c :
  Object_update obj kwargs s = (res, s') -> instance_map c s' = instance_map c s.
Proof.
  intros H. destruct (Object_update_cases _ _ _ _ _ H) as [-> | Hupd]; [reflexivity|].
  exact (dict_update_entries _ _ _ _ _ c Hupd).
Qed.

(** Reading an attribute of an instance after [__dict__.update]. *)
Lemma getattr_dict_update obj kwargs s res s' obj' k :
  dict_update obj kwargs s = (res, s') ->
  getattr s' obj' k =
  if decide (obj = obj')
  then match kwargs !! k with
       | Some v => (fun _ => v) <$> heap s !! obj
       | None => getattr s obj k
       end
  else getattr s obj' k.
Proof.
  rewrite dict_update_heap. intros [= _ <-]. unfold getattr. simpl. case_decide as Heq.
  - subst obj'. rewrite list_lookup_alter_eq.
    destruct (heap s !! obj) as [o|] eqn:Ho; rewrite ?Ho; simpl.
    + rewrite lookup_union. destruct (kwargs !! k) as [v|] eqn:Hk; simpl.
      * destruct (inst_dict o !! k); reflexivity.
      * destruct (inst_dict o !! k); reflexivity.
    + destruct (kwargs !! k); reflexivity.
  - rewrite list_lookup_alter_ne by exact Heq. reflexivity.
Qed.

(** An entry of an identity map stays where it is through [__new__]. *)
Lemma Object_new_keeps_entry c' kwargs res s s1 c key r :
  Object_new c' kwargs s = (res, s1) ->
  map_find key (instance_map c s) = Some r ->
  map_find key (instance_map c s1) = Some r.
Proof.
  intros Hnew Hfind. destruct (kwargs !! "cls") as [v|] eqn:Hcls.
  { rewrite (Object_new_unbound _ _ _ v Hcls) in Hnew. injection Hnew as _ <-. exact Hfind. }
  destruct (primary_key c') as [pk|] eqn:Hpk.
  - rewrite (Object_new_keyed c' pk kwargs s Hpk Hcls) in Hnew. cbn zeta in Hnew.
    destruct (cache_key pk kwargs) as [e'|k'].
    { injection Hnew as _ <-. rewrite with_instance_map_entries. exact Hfind. }
    destruct (map_get k' (instance_map c' s)) as [e'|[o|]].
    + injection Hnew as _ <-. rewrite with_instance_map_entries. exact Hfind.
    + injection Hnew as _ <-. rewrite with_instance_map_entries. exact Hfind.
    + injection Hnew as _ <-. rewrite instance_map_insert. case_decide as Heq.
      * apply map_find_app_Some. unfold instance_map in *. rewrite Heq. exact Hfind.
      * rewrite with_instance_map_entries. exact Hfind.
  - rewrite (Object_new_unkeyed c' kwargs s Hpk Hcls) in Hnew. injection Hnew as _ <-.
    exact Hfind.
Qed.

(** ... and through a whole construction. *)
Lemma construct_keeps_entry c' kwargs res s s' c key r :
  construct c' kwargs s = (res, s') ->
  map_find key (instance_map c s) = Some r ->
  map_find key (instance_map c s') = Some r.
Proof.
  unfold construct, bind. intros Hrun Hfind.
  destruct (Object_new c' kwargs s) as [[e|obj] s1] eqn:Hnew.
  - injection Hrun as _ <-. eapply Object_new_keeps_entry; eassumption.
  - pose proof (Object_new_keeps_entry _ _ _ _ _ c key r Hnew Hfind) as Hs1.
    destruct (Object_init obj kwargs s1) as [[e|[]] s2] eqn:Hinit;
      injection Hrun as _ <-;
      rewrite (Object_init_entries obj kwargs s1 _ s2 c Hinit); exact Hs1.
Qed.

Lemma steps_keep_entry s s' c key r :
  rtc step s s' ->
  map_find key (instance_map c s) = Some r ->
  map_find key (instance_map c s') = Some r.
Proof.
  induction 1 as [s|s s1 s2 Hstep _ IH]; [auto|].
  intros Hfind. apply IH. destruct Hstep as [c' kwargs res s s1 Hc|obj kwargs res s s1 Hu].
  - eapply construct_keeps_entry; eassumption.
  - rewrite (Object_update_entries obj kwargs s res s1 c Hu). exact Hfind.
Qed.

(** A construction that returned had keywords that bind. *)
Lemma construct_returned_bound c kwargs s r s1 :
  construct c kwargs s = (inr r, s1) ->
  kwargs !! "cls" = None /\ kwargs !! "self" = None.
Proof.
  unfold construct, bind. intros Hrun. split.
  - destruct (kwargs !! "cls") as [v|] eqn:Hcls; [|reflexivity].
    rewrite (Object_new_unbound _ _ _ v Hcls) in Hrun. discriminate.
  - destruct (kwargs !! "self") as [v|] eqn:Hself; [|reflexivity].
    destruct (Object_new c kwargs s) as [[e|obj] s0]; [discriminate|].
    rewrite (Object_init_unbound _ _ _ v Hself) in Hrun. discriminate.
Qed.

(** A successful construction of a keyed model leaves its key in the
    identity map, bound to the instance returned. *)
Lemma construct_caches c pk kwargs s r s1 key :
  primary_key c = Some pk ->
  cache_key pk kwargs = inr key ->
  construct c kwargs s = (inr r, s1) ->
  tuple_hash_error key = None /\ map_find key (instance_map c s1) = Some r.
Proof.
  intros Hpk Hkey Hrun.
  destruct (construct_returned_bound _ _ _ _ _ Hrun) as [Hcls Hself].
  revert Hrun. unfold construct, bind.
  rewrite (Object_new_keyed c pk kwargs s Hpk Hcls). cbn zeta. rewrite Hkey.
  destruct (map_get key (instance_map c s)) as [e|[obj|]] eqn:Hget; [discriminate| |].
  - apply map_get_Some in Hget as [Hhash Hfind]. rewrite (Object_init_bound _ _ _ Hself).
    rewrite dict_update_heap. intros [= <- <-]. split; [exact Hhash|].
    unfold instance_map. simpl. fold (instance_map c (with_instance_map c s)).
    rewrite with_instance_map_entries. exact Hfind.
  - unfold map_get in Hget. destruct (tuple_hash_error key) eqn:Hhash; [discriminate|].
    injection Hget as Hfind. rewrite (Object_init_bound _ _ _ Hself), dict_update_heap.
    intros [= <- <-]. split; [reflexivity|].
    unfold instance_map. simpl. rewrite lookup_insert_eq. simpl.
    rewrite (map_find_app_None _ _ _ Hfind). simpl.
    rewrite (tuple_eq_refl key Hhash). reflexivity.
Qed.

(** Constructing on a key that is in the identity map: the instance found is
    returned, after [__init__] has run on it. *)
Lemma construct_cached c pk kwargs s key obj :
  primary_key c = Some pk ->
  kwargs !! "cls" = None ->
  kwargs !! "self" = None ->
  cache_key pk kwargs = inr key ->
  map_get key (instance_map c s) = inr (Some obj) ->
  construct c kwargs s
  = (inr obj,
     mkStore (alter (fun o => mkInstance (inst_class o) (kwargs ∪ inst_dict o)) obj (heap s))
       (instance_maps s)).
Proof.
  intros Hpk Hcls Hself Hkey Hget. unfold construct, bind.
  rewrite (Object_new_keyed c pk kwargs s Hpk Hcls). cbn zeta. rewrite Hkey, Hget.
  rewrite (Object_init_bound _ _ _ Hself), dict_update_heap. unfold ret.
  assert (Hs0 : with_instance_map c s = s).
  { unfold with_instance_map. destruct (instance_maps s !! cls_name c) eqn:Hm; [reflexivity|].
    apply map_get_Some in Hget as [_ Hfind]. unfold instance_map in Hfind.
    rewrite Hm in Hfind. discriminate. }
  rewrite Hs0. reflexivity.
Qed.

(** A keyed model constructs whenever its keywords bind and its key is
    complete and hashable. *)
Lemma construct_keyed_succeeds c pk kwargs key s :
  primary_key c = Some pk ->
  kwargs !! "cls" = None ->
  kwargs !! "self" = None ->
  cache_key pk kwargs = inr key ->
  tuple_hash_error key = None ->
  exists r s1, construct c kwargs s = (inr r, s1).
Proof.
  intros Hpk Hcls Hself Hkey Hhash. unfold construct, bind.
  rewrite (Object_new_keyed c pk kwargs s Hpk Hcls). cbn zeta. rewrite Hkey.
  unfold map_get. rewrite Hhash.
  destruct (map_find key (instance_map c s)); rewrite (Object_init_bound _ _ _ Hself);
    rewrite dict_update_heap; unfold ret; eauto.
Qed.

(** *** The claims *)

(** C9 (every construction that lacks a key attribute raises [KeyError])
    does not hold for an attribute named [cls]: the call cannot bind it to
    [__new__] and raises [TypeError] before the key is looked at. *)
Lemma construct_missing_key_cls_example :
  kwargs_of [("cls", VInt 1); ("value", VStr "one")] !! "name" = None
  /\ exists msg,
       construct Options (kwargs_of [("cls", VInt 1); ("value", VStr "one")]) empty_store
       = (inl (TypeError msg), empty_store).
Proof. split; [|eexists]; vm_compute; reflexivity. Qed.

(** C9, amended: constructing a keyed model from attributes, none of them
    named [cls], that lack one of the declared primary-key names raises
    [KeyError] for a missing name, and leaves the heap and the entries of
    every identity map as they were. *)
Theorem construct_missing_key c pk kwargs s :
  primary_key c = Some pk ->
  kwargs !! "cls" = None ->
  (exists column, In column pk /\ kwargs !! column = None) ->
  exists column s',
    construct c kwargs s = (inl (KeyError column), s')
    /\ In column pk /\ kwargs !! column = None
    /\ heap s' = heap s
    /\ forall c', instance_map c' s' = instance_map c' s.
Proof.
  intros Hpk Hcls Hmiss.
  destruct (cache_key_missing pk kwargs Hmiss) as (column & Hkey & Hin & Hnone).
  exists column, (with_instance_map c s). unfold construct, bind.
  rewrite (Object_new_keyed c pk kwargs s Hpk Hcls). cbn zeta. rewrite Hkey.
  repeat split; auto using with_instance_map_heap, with_instance_map_entries.
Qed.

Lemma construct_missing_key_witness :
  exists column s',
    construct Options (kwargs_of [("value", VStr "one")]) empty_store
    = (inl (KeyError column), s')
    /\ In column ["name"] /\ kwargs_of [("value", VStr "one")] !! column = None
    /\ heap s' = heap empty_store
    /\ forall c', instance_map c' s' = instance_map c' empty_store.
Proof.
  apply (construct_missing_key Options ["name"]); [reflexivity|reflexivity|].
  exists "name". split; [left; reflexivity | vm_compute; reflexivity].
Defined.

(** C2 (any two attribute sets with the same key construct the same
    instance) does not hold when the second set has an attribute named
    [self]: the key is the one cached by the first construction, but the
    call cannot bind [self] to [__init__] and raises [TypeError] instead of
    returning the instance. *)
Lemma construct_same_key_self_example :
  exists s1 s2 msg,
    construct Options (kwargs_of [("name", VStr "first"); ("value", VStr "one")]) empty_store
    = (inr 0, s1)
    /\ cache_key ["name"] (kwargs_of [("name", VStr "first"); ("self", VInt 1)])
       = cache_key ["name"] (kwargs_of [("name", VStr "first"); ("value", VStr "one")])
    /\ construct Options (kwargs_of [("name", VStr "first"); ("self", VInt 1)]) s1
       = (inl (TypeError msg), s2).
Proof.
  do 3 eexists.
  split; [vm_compute; reflexivity|].
  split; [vm_compute; reflexivity|].
  vm_compute. reflexivity.
Qed.

(** C2, amended: let two attribute sets have complete projections onto the
    primary key that Python compares equal, and let the second have no
    attribute named [cls] or [self].  Once constructing with the first has
    returned an instance, constructing with the second returns the same
    instance, whatever else the two sets hold and whatever constructions
    and updates happen in between. *)
Theorem construct_same_key_same_instance c pk ka kb a b s r s1 s2 :
  primary_key c = Some pk ->
  cache_key pk a = inr ka ->
  cache_key pk b = inr kb ->
  tuple_eq kb ka = true ->
  b !! "cls" = None ->
  b !! "self" = None ->
  construct c a s = (inr r, s1) ->
  rtc step s1 s2 ->
  exists s3, construct c b s2 = (inr r, s3).
Proof.
  intros Hpk Ha Hb Heq Hcls Hself Hcons Hsteps.
  destruct (construct_caches c pk a s r s1 ka Hpk Ha Hcons) as [Hhash Hfind].
  pose proof (steps_keep_entry s1 s2 c ka r Hsteps Hfind) as Hfind2.
  eexists. apply (construct_cached c pk b s2 kb r Hpk Hcls Hself Hb).
  apply map_get_Some. split.
  - exact (tuple_eq_hashable_l kb ka Hhash Heq).
  - rewrite (map_find_congr ka kb _ Hhash Heq). exact Hfind2.
Qed.

Lemma construct_same_key_same_instance_witness :
  exists s3,
    construct RandomCoordinates (kwargs_of [("x", VBool true); ("y", VInt 0); ("hits", VInt 2)])
      (snd (Object_update 0 (kwargs_of [("hits", VInt 1)])
              (snd (construct RandomCoordinates
                      (kwargs_of [("x", VInt 1); ("y", VInt 0)])
                      empty_store))))
    = (inr 0, s3).
Proof.
  eapply (construct_same_key_same_instance RandomCoordinates ["x"; "y"]
            [VInt 1; VInt 0] [VBool true; VInt 0]
            (kwargs_of [("x", VInt 1); ("y", VInt 0)])
            (kwargs_of [("x", VBool true); ("y", VInt 0); ("hits", VInt 2)])
            empty_store 0).
  - reflexivity.
  - vm_compute. reflexivity.
  - vm_compute. reflexivity.
  - reflexivity.
  - vm_compute. reflexivity.
  - vm_compute. reflexivity.
  - apply surjective_pairing.
  - apply rtc_once.
    apply (step_update 0 (kwargs_of [("hits", VInt 1)]) (inr tt)).
    reflexivity.
Defined.

(** C1 (construction never merges into a cached instance) does not hold:
    constructing [Options] a second time with the name [first] returns the
    cached instance, and its [value] is now the one of the second
    construction, not the one cached before. *)
Lemma construct_cached_overwrites_example :
  exists s1 s2,
    construct Options (kwargs_of [("name", VStr "first"); ("value", VStr "one")]) empty_store
    = (inr 0, s1)
    /\ map_get [VStr "first"] (instance_map Options s1) = inr (Some 0)
    /\ construct Options (kwargs_of [("name", VStr "first"); ("value", VStr "uno")]) s1
       = (inr 0, s2)
    /\ getattr s1 0 "value" = Some (VStr "one")
    /\ getattr s2 0 "value" = Some (VStr "uno")
    /\ heap s2 !! 0 <> heap s1 !! 0.
Proof.
  do 2 eexists.
  split; [vm_compute; reflexivity|].
  split; [vm_compute; reflexivity|].
  split; [vm_compute; reflexivity|].
  split; [vm_compute; reflexivity|].
  split; [vm_compute; reflexivity|].
  intros Heq.
  assert (Hattr : forall s s', heap s' !! 0 = heap s !! 0 ->
                               getattr s' 0 "value" = getattr s 0 "value").
  { intros s s' H. unfold getattr. rewrite H. reflexivity. }
  apply Hattr in Heq. vm_compute in Heq. discriminate.
Qed.

(** C1, amended: constructing on a primary-key tuple that is in the identity
    map, from attributes none of which is named [cls] or [self], returns
    the instance found there and merges the attributes of the call into it:
    every attribute given takes the new value, every other attribute keeps
    its value, no other instance changes, and the identity maps keep their
    entries. *)
Theorem construct_cached_merges c pk kwargs key obj s :
  primary_key c = Some pk ->
  kwargs !! "cls" = None ->
  kwargs !! "self" = None ->
  cache_key pk kwargs = inr key ->
  map_get key (instance_map c s) = inr (Some obj) ->
  is_Some (heap s !! obj) ->
  exists s',
    construct c kwargs s = (inr obj, s')
    /\ (forall k v, kwargs !! k = Some v -> getattr s' obj k = Some v)
    /\ (forall k, kwargs !! k = None -> getattr s' obj k = getattr s obj k)
    /\ (forall obj', obj' <> obj -> heap s' !! obj' = heap s !! obj')
    /\ instance_maps s' = instance_maps s.
Proof.
  intros Hpk Hcls Hself Hkey Hget [o Ho].
  pose proof (construct_cached c pk kwargs s key obj Hpk Hcls Hself Hkey Hget) as Hc.
  eexists. split; [exact Hc|].
  set (s' := mkStore _ _) in *.
  assert (Hupd : dict_update obj kwargs s = (inr tt, s')) by apply dict_update_heap.
  repeat split.
  - intros k v Hk. rewrite (getattr_dict_update _ _ _ _ _ obj k Hupd).
    rewrite decide_True by reflexivity. rewrite Hk, Ho. reflexivity.
  - intros k Hk. rewrite (getattr_dict_update _ _ _ _ _ obj k Hupd).
    rewrite decide_True by reflexivity. rewrite Hk. reflexivity.
  - intros obj' Hne. subst s'. simpl. apply list_lookup_alter_ne. congruence.
Qed.

Lemma construct_cached_merges_witness :
  exists s',
    construct Options (kwargs_of [("name", VStr "first"); ("value", VStr "uno")])
      (snd (construct Options
              (kwargs_of [("name", VStr "first"); ("value", VStr "one")]) empty_store))
    = (inr 0, s')
    /\ getattr s' 0 "value" = Some (VStr "uno").
Proof.
  destruct (construct_cached_merges Options ["name"]
              (kwargs_of [("name", VStr "first"); ("value", VStr "uno")])
              [VStr "first"] 0
              (snd (construct Options
                      (kwargs_of [("name", VStr "first"); ("value", VStr "one")])
                      empty_store)))
    as (s' & Hc & Hnew & _).
  - reflexivity.
  - vm_compute. reflexivity.
  - vm_compute. reflexivity.
  - vm_compute. reflexivity.
  - vm_compute. reflexivity.
  - eexists. vm_compute. reflexivity.
  - exists s'. split; [exact Hc|]. apply Hnew. vm_compute. reflexivity.
Defined.

(** C8 (every [update] merges its attributes) does not hold for an
    attribute named [self]: the call cannot bind it and raises [TypeError],
    and the instance is as it was. *)
Lemma Object_update_self_example :
  exists s msg,
    construct Options (kwargs_of [("name", VStr "first"); ("value", VStr "one")]) empty_store
    = (inr 0, s)
    /\ Object_update 0 (kwargs_of [("self", VInt 1)]) s = (inl (TypeError msg), s)
    /\ getattr s 0 "self" = None.
Proof.
  do 2 eexists. split; [vm_compute; reflexivity|].
  split; vm_compute; reflexivity.
Qed.

(** C8, amended: [update] with attributes none of which is named [self]
    merges them into the instance where it lives: every attribute given
    takes the new value, every other attribute keeps its value, the instance
    stays at its reference with its class, no other instance changes, and
    every identity map keeps its entries, so a key that led to the instance
    still leads to it. *)
Theorem Object_update_in_place obj kwargs s :
  kwargs !! "self" = None ->
  is_Some (heap s !! obj) ->
  exists s',
    Object_update obj kwargs s = (inr tt, s')
    /\ (forall k v, kwargs !! k = Some v -> getattr s' obj k = Some v)
    /\ (forall k, kwargs !! k = None -> getattr s' obj k = getattr s obj k)
    /\ inst_class <$> heap s' !! obj = inst_class <$> heap s !! obj
    /\ length (heap s') = length (heap s)
    /\ (forall obj', obj' <> obj -> heap s' !! obj' = heap s !! obj')
    /\ instance_maps s' = instance_maps s
    /\ (forall c key, map_get key (instance_map c s') = map_get key (instance_map c s)).
Proof.
  intros Hself [o Ho]. rewrite (Object_update_bound obj kwargs s Hself).
  eexists. split; [apply dict_update_heap|].
  set (s' := mkStore _ _).
  assert (Hupd : dict_update obj kwargs s = (inr tt, s')) by apply dict_update_heap.
  repeat split.
  - intros k v Hk. rewrite (getattr_dict_update _ _ _ _ _ obj k Hupd).
    rewrite decide_True by reflexivity. rewrite Hk, Ho. reflexivity.
  - intros k Hk. rewrite (getattr_dict_update _ _ _ _ _ obj k Hupd).
    rewrite decide_True by reflexivity. rewrite Hk. reflexivity.
  - subst s'. simpl. rewrite list_lookup_alter_eq, Ho. reflexivity.
  - subst s'. simpl. apply length_alter.
  - intros obj' Hne. subst s'. simpl. apply list_lookup_alter_ne. congruence.
Qed.

Lemma Object_update_in_place_witness :
  exists s',
    Object_update 0 (kwargs_of [("value", VStr "v2")])
      (snd (construct Options
              (kwargs_of [("name", VStr "first"); ("value", VStr "one")]) empty_store))
    = (inr tt, s')
    /\ getattr s' 0 "value" = Some (VStr "v2")
    /\ getattr s' 0 "name" = Some (VStr "first")
    /\ map_get [VStr "first"] (instance_map Options s') = inr (Some 0).
Proof.
  destruct (Object_update_in_place 0 (kwargs_of [("value", VStr "v2")])
              (snd (construct Options
                      (kwargs_of [("name", VStr "first"); ("value", VStr "one")])
                      empty_store)))
    as (s' & Hu & Hnew & Hold & _ & _ & _ & _ & Hmap).
  - vm_compute. reflexivity.
  - eexists. vm_compute. reflexivity.
  - exists s'. split; [exact Hu|]. split; [|split].
    + apply Hnew. vm_compute. reflexivity.
    + rewrite Hold by (vm_compute; reflexivity). vm_compute. reflexivity.
    + rewrite Hmap. vm_compute. reflexivity.
Defined.

End ModelFacts.

(** ** The connection gateway *)

Module GatewayFacts.
Import Gateway.

Local Open Scope list_scope.

(** *** Decoding a row *)

Lemma named_row_fold_other (names : list string) (row : list Value) n (acc : gmap string Value) :
  ~ In n names ->
  fold_left (fun m nv => <[fst nv := snd nv]> m) (zip names row) acc !! n = acc !! n.
Proof.
  revert row acc. induction names as [|n0 names IH]; intros row acc Hn; [reflexivity|].
  destruct row as [|v0 row]; [reflexivity|]. simpl.
  rewrite IH by (intros H; apply Hn; right; exact H).
  apply lookup_insert_ne. intros ->. apply Hn. left. reflexivity.
Qed.

(** With distinct column names, the record maps the i-th name to the i-th
    field of the row. *)
Lemma named_row_lookup (names : list string) (row : list Value) i n v :
  List.NoDup names ->
  names !! i = Some n ->
  row !! i = Some v ->
  named_row names row !! n = Some v.
Proof.
  unfold named_row. generalize (∅ : gmap string Value).
  revert row i. induction names as [|n0 names IH]; intros row i acc Hnd Hn Hv.
  - destruct i; discriminate.
  - destruct row as [|v0 row]; [destruct i; discriminate|].
    inversion Hnd as [|? ? Hnotin Hnd']; subst. simpl. destruct i as [|i].
    + injection Hn as ->. injection Hv as ->.
      rewrite named_row_fold_other by exact Hnotin. apply lookup_insert_eq.
    + eapply IH; eassumption.
Qed.

Section Decoder.

Local Open Scope nat_scope.

Abbreviation put := (fun (m : gmap string Value) (nv : string * Value) => <[fst nv := snd nv]> m).

(** A name that is paired with no field is left as it was. *)
Lemma fold_put_unpaired (names : list string) (row : list Value) n (acc : gmap string Value) :
  (forall j, names !! j = Some n -> row !! j = None) ->
  fold_left put (zip names row) acc !! n = acc !! n.
Proof.
  revert row acc. induction names as [|n0 names IH]; intros row acc Hno; [reflexivity|].
  destruct row as [|v0 row]; [reflexivity|]. simpl.
  rewrite IH by (intros j Hj; exact (Hno (S j) Hj)).
  apply lookup_insert_ne. intros ->. specialize (Hno 0 eq_refl). discriminate.
Qed.

(** A name that is in the record stays in it. *)
Lemma fold_put_is_Some (names : list string) (row : list Value) n (acc : gmap string Value) :
  is_Some (acc !! n) -> is_Some (fold_left put (zip names row) acc !! n).
Proof.
  revert row acc. induction names as [|n0 names IH]; intros row acc Hacc; [exact Hacc|].
  destruct row as [|v0 row]; [exact Hacc|]. simpl. apply IH.
  rewrite lookup_insert. case_decide; [eauto|exact Hacc].
Qed.

Lemma fold_put_last (names : list string) (row : list Value) i n v (acc : gmap string Value) :
  names !! i = Some n ->
  row !! i = Some v ->
  (forall j, i < j -> names !! j = Some n -> row !! j = None) ->
  fold_left put (zip names row) acc !! n = Some v.
Proof.
  revert row i acc. induction names as [|n0 names IH]; intros row i acc Hn Hv Hlast.
  - destruct i; discriminate.
  - destruct row as [|v0 row]; [destruct i; discriminate|]. simpl. destruct i as [|i].
    + injection Hn as ->. injection Hv as ->.
      rewrite fold_put_unpaired by (intros j Hj; apply (Hlast (S j)); [lia|exact Hj]).
      apply lookup_insert_eq.
    + apply (IH row i); [exact Hn|exact Hv|].
      intros j Hij Hj. apply (Hlast (S j)); [lia|exact Hj].
Qed.

(** A record has a name exactly when the name is paired with a field. *)
Lemma named_row_paired (names : list string) (row : list Value) n :
  is_Some (named_row names row !! n)
  <-> exists j v, names !! j = Some n /\ row !! j = Some v.
Proof.
  unfold named_row. generalize (∅ : gmap string Value) (lookup_empty (M := gmap string) (A := Value) n).
  revert row. induction names as [|n0 names IH]; intros row acc Hacc.
  - simpl. rewrite Hacc. split; [intros [? [=]]|intros (j & v & Hj & _); destruct j; discriminate].
  - destruct row as [|v0 row].
    + simpl. rewrite Hacc.
      split; [intros [? [=]]|intros (j & v & _ & Hj); destruct j; discriminate].
    + simpl. destruct (decide (n0 = n)) as [->|Hne].
      * split; [intros _; exists 0, v0; auto|intros _].
        apply fold_put_is_Some. rewrite lookup_insert_eq. eauto.
      * rewrite IH by (rewrite lookup_insert_ne by exact Hne; exact Hacc).
        split.
        -- intros (j & v & Hj & Hv). exists (S j), v. auto.
        -- intros (j & v & Hj & Hv). destruct j as [|j]; [simpl in Hj; congruence|].
           exists j, v. auto.
Qed.

(** The decoder of the gateway decodes. *)
Lemma named_row_decoded (names : list string) (fields : list Value) :
  RowDecoding.decoded names fields (named_row names fields).
Proof.
  split.
  - intros n. apply named_row_paired.
  - intros i n v Hn Hv Hlast. unfold named_row. exact (fold_put_last _ _ i n v _ Hn Hv Hlast).
Qed.

End Decoder.

Section WithDriver.

Context {World Conn Cursor : Type}.
Variable drv : Driver World Conn Cursor.

Abbreviation no_connection := (RuntimeError "No database connection").
Abbreviation already_connected := (RuntimeError "Database connection already exists").

(** Without a connection no cursor is made. *)
Lemma no_cursor_without_connection (q : Query) (s : State World Conn) :
  _connection (db s) = None ->
  _get_cursor_for_query drv q s = (inl no_connection, s).
Proof.
  intros Hnone. unfold _get_cursor_for_query, bind, _get_connection.
  rewrite Hnone. reflexivity.
Qed.

Lemma queries_without_connection (q : Query) (s : State World Conn) :
  _connection (db s) = None ->
  execute drv q s = (inl no_connection, s)
  /\ get_one drv q s = (inl no_connection, s)
  /\ get_all drv q s = (inl no_connection, s).
Proof.
  intros Hnone. pose proof (no_cursor_without_connection q s Hnone) as Hcur.
  repeat split.
  - exact Hcur.
  - unfold get_one, bind. rewrite Hcur. reflexivity.
  - unfold get_all, bind. rewrite Hcur. reflexivity.
Qed.

(** Every way [initialize] can end, given the state it starts from. *)
Lemma initialize_cases (d u p h o : Value) (s : State World Conn) :
  initialize drv d u p h o s =
  match _connection (db s) with
  | Some _ => (inl already_connected, s)
  | None =>
      match connect drv d u p h o (world s) with
      | (inl code, w) => (inl (DriverError code), mkState (db s) w)
      | (inr c, w) => (inr tt, mkState (mkDatabase d u (Some c)) w)
      end
  end.
Proof.
  unfold initialize, bind, lift.
  destruct (_connection (db s)); [reflexivity|].
  destruct (connect drv d u p h o (world s)) as [[code|c] w]; reflexivity.
Qed.

(** C6: on a gateway without a connection, [execute], [get_one] and
    [get_all] raise the no-connection error and [rollback] does nothing; once
    [initialize] has succeeded, any further [initialize] raises the
    already-connected error. *)
Theorem gateway_usage_errors (q : Query) (s : State World Conn) :
  _connection (db s) = None ->
  execute drv q s = (inl no_connection, s)
  /\ get_one drv q s = (inl no_connection, s)
  /\ get_all drv q s = (inl no_connection, s)
  /\ rollback drv s = (inr tt, s)
  /\ (forall d u p h o s1,
        initialize drv d u p h o s = (inr tt, s1) ->
        forall d' u' p' h' o',
          initialize drv d' u' p' h' o' s1 = (inl already_connected, s1)).
Proof.
  intros Hnone.
  destruct (queries_without_connection q s Hnone) as (Hexec & Hone & Hall).
  repeat split; try assumption.
  - unfold rollback. rewrite Hnone. reflexivity.
  - intros d u p h o s1. rewrite initialize_cases, Hnone.
    destruct (connect drv d u p h o (world s)) as [[code|c] w]; [discriminate|].
    intros [= <-] d' u' p' h' o'. rewrite initialize_cases. reflexivity.
Qed.

(** What the gateway does up to the fetch, call by call. *)
Lemma cursor_for_query (q : Query) (s : State World Conn) c cursor w1 w2 :
  _connection (db s) = Some c ->
  conn_cursor drv c (world s) = (inr cursor, w1) ->
  cursor_execute drv cursor (query_string q) (args q) w1 = (inr tt, w2) ->
  _get_cursor_for_query drv q s = (inr cursor, mkState (db s) w2).
Proof.
  intros Hconn Hcur Hexec. unfold _get_cursor_for_query, bind, _get_connection, lift.
  rewrite Hconn. simpl. rewrite Hcur. simpl. rewrite Hexec. reflexivity.
Qed.

(** C7: on a connected gateway, when the driver has made a cursor, run the
    template with the arguments of the query on it and fetched, [get_one]
    returns [None] for no row, and for a row the record that has exactly
    the column names of [cursor.description] that come with a field, each
    with its field of the row. *)
Theorem get_one_result (q : Query) (s : State World Conn) c cursor w1 w2 row w3 :
  _connection (db s) = Some c ->
  conn_cursor drv c (world s) = (inr cursor, w1) ->
  cursor_execute drv cursor (query_string q) (args q) w1 = (inr tt, w2) ->
  cursor_fetchone drv cursor w2 = (inr row, w3) ->
  exists result,
    get_one drv q s = (inr result, mkState (db s) w3)
    /\ match row with
       | None => result = None
       | Some fields =>
           exists record,
             result = Some record
             /\ RowDecoding.decoded
                  (List.map name (cursor_description drv cursor w3)) fields record
       end.
Proof.
  intros Hconn Hcur Hexec Hfetch.
  pose proof (cursor_for_query q s c cursor w1 w2 Hconn Hcur Hexec) as Hrun.
  unfold get_one, bind at 1. rewrite Hrun.
  unfold bind at 1, lift. cbn [world db]. rewrite Hfetch.
  destruct row as [fields|].
  - eexists. split; [reflexivity|]. eexists. split; [reflexivity|].
    apply named_row_decoded.
  - eexists. split; reflexivity.
Qed.

(** C10: when [initialize] fails on a gateway without a connection, the
    failure is the driver's, the attributes of the gateway are unchanged,
    the gateway still has no connection, and a later [initialize] goes to the
    driver again: it never raises the already-connected error, and succeeds
    when the driver connects. *)
Theorem initialize_failure_no_effect (d u p h o : Value) (s s' : State World Conn) e :
  _connection (db s) = None ->
  initialize drv d u p h o s = (inl e, s') ->
  db s' = db s
  /\ (exists code, e = DriverError code)
  /\ (forall q,
        execute drv q s' = (inl no_connection, s')
        /\ get_one drv q s' = (inl no_connection, s')
        /\ get_all drv q s' = (inl no_connection, s'))
  /\ rollback drv s' = (inr tt, s')
  /\ (forall d' u' p' h' o' res s2,
        initialize drv d' u' p' h' o' s' = (res, s2) -> res <> inl already_connected)
  /\ (forall d' u' p' h' o' c w2,
        connect drv d' u' p' h' o' (world s') = (inr c, w2) ->
        initialize drv d' u' p' h' o' s' = (inr tt, mkState (mkDatabase d' u' (Some c)) w2)).
Proof.
  intros Hnone. rewrite initialize_cases, Hnone.
  destruct (connect drv d u p h o (world s)) as [[code|c] w]; [|discriminate].
  intros [= <- <-].
  assert (Hnone' : _connection (db (mkState (db s) w)) = None) by exact Hnone.
  split; [reflexivity|]. split; [eauto|]. split; [|split; [|split]].
  - intros q. exact (queries_without_connection q _ Hnone').
  - unfold rollback. rewrite Hnone'. reflexivity.
  - intros d' u' p' h' o' res s2. rewrite initialize_cases, Hnone'.
    destruct (connect drv d' u' p' h' o' _) as [[code'|c'] w']; intros [= <- _]; discriminate.
  - intros d' u' p' h' o' c w2 Hconn. rewrite initialize_cases, Hnone', Hconn. reflexivity.
Qed.

End WithDriver.

Lemma gateway_usage_errors_witness :
  rollback canned_driver (unconnected (options_world true))
  = (inr tt, unconnected (options_world true))
  /\ initialize canned_driver (VStr "database") (VStr "user") (VStr "password") VNone VNone
       (connected (options_world true))
     = (inl (RuntimeError "Database connection already exists"),
        connected (options_world true)).
Proof.
  destruct (gateway_usage_errors canned_driver (mkQuery "SELECT * FROM options" [])
              (unconnected (options_world true)) eq_refl)
    as (_ & _ & _ & Hrollback & Htwice).
  split; [exact Hrollback|].
  apply (Htwice (VStr "database") (VStr "user") (VStr "password")
           (VStr "localhost") (VInt 5432)).
  reflexivity.
Defined.

Lemma get_one_result_witness :
  exists record,
    get_one canned_driver
      (mkQuery "SELECT * FROM options WHERE name = %(name)s" [VDict [("name", VStr "first")]])
      (connected (options_world true))
    = (inr (Some record),
       connected (mkCanned true [mkColumn "name" 25; mkColumn "value" 25] []))
    /\ record !! "name" = Some (VStr "first")
    /\ record !! "value" = Some (VStr "one").
Proof.
  destruct (get_one_result canned_driver
              (mkQuery "SELECT * FROM options WHERE name = %(name)s"
                 [VDict [("name", VStr "first")]])
              (connected (options_world true)) tt tt
              (options_world true) (options_world true)
              (Some [VStr "first"; VStr "one"])
              (mkCanned true [mkColumn "name" 25; mkColumn "value" 25] [])
              eq_refl eq_refl eq_refl eq_refl)
    as (result & Hrun & record & -> & _ & Hfield).
  exists record. split; [exact Hrun|]. split.
  - apply (Hfield 0%nat "name" (VStr "first")); [reflexivity|reflexivity|].
    intros [|[|j]] Hj; [lia|discriminate|discriminate].
  - apply (Hfield 1%nat "value" (VStr "one")); [reflexivity|reflexivity|].
    intros [|[|j]] Hj; [lia|lia|discriminate].
Defined.

Lemma initialize_failure_no_effect_witness :
  db (unconnected (options_world false)) = mkDatabase VNone VNone None
  /\ rollback canned_driver (unconnected (options_world false))
     = (inr tt, unconnected (options_world false)).
Proof.
  destruct (initialize_failure_no_effect canned_driver
              (VStr "database") (VStr "user") (VStr "password") (VStr "localhost") (VInt 5432)
              (unconnected (options_world false)) (unconnected (options_world false))
              (DriverError "could not connect to server") eq_refl eq_refl)
    as (Hdb & _ & _ & Hrollback & _).
  split; [exact Hdb | exact Hrollback].
Defined.

End GatewayFacts.

(** * Further properties *)

(** ** Rendering a query *)

Module QueryRendering.

Lemma string_app_cons (x : ascii) (a b : string) :
  (String x a ++ b = String x (a ++ b))%string.
Proof. reflexivity. Qed.

Lemma string_app_nil_l (a : string) : (EmptyString ++ a = a)%string.
Proof. reflexivity. Qed.

Lemma string_app_assoc (a b c : string) : ((a ++ b) ++ c = a ++ (b ++ c))%string.
Proof.
  induction a as [|x a IH]; [reflexivity|].
  rewrite !string_app_cons. f_equal. exact IH.
Qed.

Lemma string_app_nil_r (a : string) : (a ++ EmptyString = a)%string.
Proof.
  induction a as [|x a IH]; [reflexivity|].
  rewrite string_app_cons. f_equal. exact IH.
Qed.

Lemma has_char_cons_false c d s :
  has_char c (String d s) = false -> Ascii.eqb d c = false /\ has_char c s = false.
Proof.
  simpl. intros H. apply orb_false_elim in H as [Hd Hs].
  rewrite Ascii.eqb_sym. auto.
Qed.

(** Plain text is copied to the output. *)
Lemma format_plain_text operand arg used out text rest :
  plain_text text = true ->
  format_from operand Literal arg used out (text ++ rest)
  = format_from operand Literal arg used (out ++ text) rest.
Proof.
  unfold plain_text. rewrite negb_true_iff.
  revert out. induction text as [|c text IH]; intros out Hplain.
  - rewrite string_app_nil_l, string_app_nil_r. reflexivity.
  - apply has_char_cons_false in Hplain as [Hc Htext].
    rewrite string_app_cons. simpl. rewrite Hc, (IH _ Htext), string_app_assoc.
    reflexivity.
Qed.

(** Inside a key, everything up to the closing parenthesis is the key. *)
Lemma format_key operand arg used out seen key rest :
  plain_key key = true ->
  format_from operand (InKey O seen) arg used out (key ++ String ")"%char rest)
  = match mapping_getitem operand (seen ++ key) with
    | inl e => Some (inl e)
    | inr v => format_from operand AfterKey v false out rest
    end.
Proof.
  unfold plain_key. rewrite andb_true_iff, !negb_true_iff.
  revert seen. induction key as [|c key IH]; intros seen [Hopen Hclose].
  - rewrite string_app_nil_l, string_app_nil_r. reflexivity.
  - apply has_char_cons_false in Hopen as [Hc1 Hopen].
    apply has_char_cons_false in Hclose as [Hc2 Hclose].
    rewrite string_app_cons. simpl.
    rewrite Hc1, Hc2, (IH _ (conj Hopen Hclose)), string_app_assoc. reflexivity.
Qed.

(** One segment: its text is copied and its placeholder replaced by the
    [str] of the argument of that name, or the lookup raises. *)
Lemma format_segment operand arg used out text key rest :
  is_mapping operand = true ->
  plain_text text = true ->
  plain_key key = true ->
  format_from operand Literal arg used out (text ++ "%(" ++ key ++ ")s" ++ rest)
  = match mapping_getitem operand key with
    | inl e => Some (inl e)
    | inr v => format_from operand Literal v true ((out ++ text) ++ py_str v) rest
    end.
Proof.
  intros Hmap Htext Hkey. rewrite (format_plain_text _ _ _ _ _ _ Htext).
  rewrite !string_app_cons, !string_app_nil_l. simpl. rewrite Hmap.
  rewrite (format_key _ _ _ _ _ _ _ Hkey). rewrite string_app_nil_l.
  destruct (mapping_getitem operand key) as [e|v]; reflexivity.
Qed.

Lemma assoc_get_reprs key (kwargs : list (string * Value)) :
  assoc_get key (List.map (fun kv => (fst kv, VStr (py_repr (snd kv)))) kwargs)
  = (fun v => VStr (py_repr v)) <$> assoc_get key kwargs.
Proof.
  induction kwargs as [|[k v] kwargs IH]; simpl; [reflexivity|].
  destruct (String.eqb key k); [reflexivity|exact IH].
Qed.

(** Formatting a whole template of segments against a dict of reprs. *)
Lemma format_named_template kwargs segments tail text arg used out :
  Forall (fun seg => plain_text (fst seg) = true /\ plain_key (snd seg) = true) segments ->
  plain_text tail = true ->
  named_rendering kwargs segments tail = Some text ->
  format_from (VDict (List.map (fun kv => (fst kv, VStr (py_repr (snd kv)))) kwargs))
    Literal arg used out (named_template segments tail)
  = Some (inr (out ++ text)).
Proof.
  intros Hsegs Htail. revert text arg used out.
  induction Hsegs as [|[lit key] segments [Hlit Hkey] _ IH]; intros text arg used out.
  - intros [= <-]. cbn [named_template fold_right].
    rewrite <- (string_app_nil_r tail) at 1.
    rewrite (format_plain_text _ _ _ _ _ _ Htail). simpl.
    rewrite andb_false_r. reflexivity.
  - cbn [named_rendering].
    destruct (assoc_get key kwargs) as [v|] eqn:Hv; [|discriminate].
    destruct (named_rendering kwargs segments tail) as [r|] eqn:Hr; [|discriminate].
    intros [= <-]. cbn [named_template fold_right fst snd] in *.
    rewrite format_segment by auto. cbn [mapping_getitem].
    rewrite assoc_get_reprs, Hv. cbn [fmap option_fmap option_map py_str].
    fold (named_template segments tail).
    rewrite (IH r) by reflexivity. rewrite !string_app_assoc. reflexivity.
Qed.

(** X1: a query built from a template of plain text and [%(key)s]
    placeholders, with named arguments that cover every key and are not
    called [self] or [query_string], renders to the same text with the
    [repr] of each argument in place of its placeholder. *)
Theorem Query_repr_named (kwargs : list (string * Value)) segments tail text :
  kwargs <> [] ->
  bound_twice ["self"; "query_string"] kwargs = None ->
  Forall (fun seg => plain_text (fst seg) = true /\ plain_key (snd seg) = true) segments ->
  plain_text tail = true ->
  named_rendering kwargs segments tail = Some text ->
  exists q,
    Query_init (named_template segments tail) [] kwargs = inr q
    /\ Query_repr q = Some (inr text).
Proof.
  intros Hne Hbound Hsegs Htail Htext.
  destruct kwargs as [|kv kwargs]; [congruence|].
  eexists. split; [unfold Query_init; rewrite Hbound; reflexivity|].
  unfold Query_repr, py_format, query_args. cbn [args query_string].
  apply (format_named_template (kv :: kwargs) segments tail text); assumption.
Qed.

Lemma Query_repr_named_witness :
  exists q,
    Query_init "INSERT INTO options (name, value) VALUES (%(name)s, %(value)s) RETURNING *"
      [] [("name", VStr "fifth"); ("value", VStr "five")] = inr q
    /\ Query_repr q
       = Some (inr "INSERT INTO options (name, value) VALUES ('fifth', 'five') RETURNING *").
Proof.
  apply (Query_repr_named [("name", VStr "fifth"); ("value", VStr "five")]
           [("INSERT INTO options (name, value) VALUES (", "name"); (", ", "value")]
           ") RETURNING *").
  - discriminate.
  - reflexivity.
  - repeat constructor.
  - reflexivity.
  - reflexivity.
Defined.

Lemma format_missing_name kwargs before text key rest shown arg used out :
  Forall (fun seg => plain_text (fst seg) = true /\ plain_key (snd seg) = true) before ->
  named_rendering kwargs before EmptyString = Some shown ->
  plain_text text = true ->
  plain_key key = true ->
  assoc_get key kwargs = None ->
  format_from (VDict (List.map (fun kv => (fst kv, VStr (py_repr (snd kv)))) kwargs))
    Literal arg used out (named_template before (text ++ "%(" ++ key ++ ")s" ++ rest))
  = Some (inl (KeyError key)).
Proof.
  intros Hsegs Hshown Htext Hkey Hnone. revert shown Hshown arg used out.
  induction Hsegs as [|[lit k] segments [Hlit Hk] _ IH]; intros shown Hshown arg used out.
  - cbn [named_template fold_right].
    rewrite format_segment by auto. cbn [mapping_getitem].
    rewrite assoc_get_reprs, Hnone. reflexivity.
  - cbn [named_rendering] in Hshown.
    destruct (assoc_get k kwargs) as [v|] eqn:Hv; [|discriminate].
    destruct (named_rendering kwargs segments EmptyString) as [r|] eqn:Hr; [|discriminate].
    cbn [named_template fold_right fst snd] in *.
    rewrite format_segment by auto. cbn [mapping_getitem].
    rewrite assoc_get_reprs, Hv. cbn [fmap option_fmap option_map].
    apply (IH r eq_refl).
Qed.

(** X2: when the first placeholder without an argument is [%(key)s], and
    the query has named arguments, none of them called [self] or
    [query_string], rendering raises [KeyError] for that key. *)
Theorem Query_repr_missing_name (kwargs : list (string * Value)) before text key rest shown :
  kwargs <> [] ->
  bound_twice ["self"; "query_string"] kwargs = None ->
  Forall (fun seg => plain_text (fst seg) = true /\ plain_key (snd seg) = true) before ->
  named_rendering kwargs before EmptyString = Some shown ->
  plain_text text = true ->
  plain_key key = true ->
  assoc_get key kwargs = None ->
  exists q,
    Query_init (named_template before (text ++ "%(" ++ key ++ ")s" ++ rest)) [] kwargs = inr q
    /\ Query_repr q = Some (inl (KeyError key)).
Proof.
  intros Hne Hbound Hsegs Hshown Htext Hkey Hnone.
  destruct kwargs as [|kv kwargs]; [congruence|].
  eexists. split; [unfold Query_init; rewrite Hbound; reflexivity|].
  unfold Query_repr, py_format, query_args. cbn [args query_string].
  eapply format_missing_name; eassumption.
Qed.

Lemma Query_repr_missing_name_witness :
  exists q,
    Query_init "UPDATE options SET value = %(value)s WHERE name = %(name)s RETURNING *"
      [] [("value", VStr "two")] = inr q
    /\ Query_repr q = Some (inl (KeyError "name")).
Proof.
  apply (Query_repr_missing_name [("value", VStr "two")]
           [("UPDATE options SET value = ", "value")] " WHERE name = " "name" " RETURNING *"
           "UPDATE options SET value = 'two'").
  - discriminate.
  - reflexivity.
  - repeat constructor.
  - reflexivity.
  - reflexivity.
  - reflexivity.
  - reflexivity.
Defined.

(** X3: a template without [%] renders to itself, whatever the arguments of
    the query. *)
Theorem Query_repr_plain (q : Query) :
  plain_text (query_string q) = true ->
  Query_repr q = Some (inr (query_string q)).
Proof.
  intros Hplain. unfold Query_repr, py_format.
  assert (Hmap : is_mapping (query_args q) = true).
  { unfold query_args. destruct (args q) as [|[] [|]]; reflexivity. }
  rewrite <- (string_app_nil_r (query_string q)) at 1.
  rewrite (format_plain_text _ _ _ _ _ _ Hplain). simpl.
  rewrite Hmap. reflexivity.
Qed.

Lemma Query_repr_plain_witness :
  Query_repr (mkQuery "DROP TABLE options" []) = Some (inr "DROP TABLE options").
Proof. apply (Query_repr_plain (mkQuery "DROP TABLE options" [])). reflexivity. Defined.

End QueryRendering.

(** ** The store the models build *)

Module StoreFacts.
Import Model StoreInvariant ModelFacts.

Local Open Scope nat_scope.
Local Open Scope list_scope.

(** *** Keys that are equal to a common key *)

Lemma py_eq_hashable_r (a k : Value) :
  hash_error a = None -> py_eq a k = true -> hash_error k = None.
Proof. destruct a, k; simpl; congruence. Qed.

Lemma py_eq_join (a b k : Value) :
  hash_error a = None -> hash_error b = None ->
  py_eq a k = true -> py_eq b k = true -> py_eq a b = true.
Proof.
  destruct a as [|x|x|x|x|x], b as [|y|y|y|y|y], k as [|z|z|z|z|z]; simpl;
    try discriminate; try reflexivity; intros _ _;
    rewrite ?Z.eqb_eq, ?String.eqb_eq, ?Bool.eqb_true_iff; intros; subst;
    try reflexivity; try congruence;
    repeat match goal with b : bool |- _ => destruct b end;
    simpl in *; try reflexivity; try discriminate; try lia.
Qed.

Lemma tuple_eq_join (ka kb k : list Value) :
  tuple_hash_error ka = None -> tuple_hash_error kb = None ->
  tuple_eq ka k = true -> tuple_eq kb k = true -> tuple_eq ka kb = true.
Proof.
  revert kb k. induction ka as [|a ka IH]; intros [|b kb] [|x k]; simpl;
    try discriminate; try reflexivity.
  destruct (hash_error a) eqn:Ha; [discriminate|].
  destruct (hash_error b) eqn:Hb; [discriminate|].
  intros Hka Hkb. rewrite !andb_true_iff. intros [Hax Hk1] [Hbx Hk2]. split.
  - exact (py_eq_join a b x Ha Hb Hax Hbx).
  - exact (IH kb k Hka Hkb Hk1 Hk2).
Qed.

Lemma map_find_In key m r :
  map_find key m = Some r -> exists k, In (k, r) m /\ tuple_eq key k = true.
Proof.
  induction m as [|[k r0] m IH]; simpl; [discriminate|].
  destruct (tuple_eq key k) eqn:Hk.
  - intros [= ->]. exists k. auto.
  - intros Hfind. destruct (IH Hfind) as (k' & Hin & Heq). exists k'. auto.
Qed.

Lemma NoDup_snd_same_key {A B : Type} (m : list (A * B)) k1 k2 r :
  List.NoDup (List.map snd m) -> In (k1, r) m -> In (k2, r) m -> k1 = k2.
Proof.
  induction m as [|[k r0] m IH]; simpl; [intros _ []|].
  intros Hnd H1 H2. inversion Hnd as [|? ? Hnotin Hnd']; subst.
  destruct H1 as [E1|H1], H2 as [E2|H2].
  - congruence.
  - exfalso. apply Hnotin. apply (in_map snd) in H2. simpl in H2. congruence.
  - exfalso. apply Hnotin. apply (in_map snd) in H1. simpl in H1. congruence.
  - exact (IH Hnd' H1 H2).
Qed.

(** *** The heap only grows *)

Lemma dict_update_lookup obj kwargs s res s' r :
  dict_update obj kwargs s = (res, s') ->
  heap s' !! r
  = if decide (obj = r)
    then (fun o => mkInstance (inst_class o) (kwargs ∪ inst_dict o)) <$> heap s !! r
    else heap s !! r.
Proof.
  rewrite dict_update_heap. intros [= _ <-]. simpl. case_decide as Heq.
  - subst r. apply list_lookup_alter_eq.
  - apply list_lookup_alter_ne. exact Heq.
Qed.

Lemma dict_update_length obj kwargs s res s' :
  dict_update obj kwargs s = (res, s') -> length (heap s') = length (heap s).
Proof. rewrite dict_update_heap. intros [= _ <-]. simpl. apply length_alter. Qed.

(** An instance stays at its reference, with its class, through
    [__dict__.update]. *)
Lemma dict_update_keeps_instance obj kwargs s res s' r o :
  dict_update obj kwargs s = (res, s') ->
  heap s !! r = Some o ->
  exists o', heap s' !! r = Some o' /\ inst_class o' = inst_class o.
Proof.
  intros Hupd Ho. rewrite (dict_update_lookup _ _ _ _ _ r Hupd), Ho.
  case_decide; simpl; eauto.
Qed.

(** What [__new__] does to the heap: nothing, or one more instance of the
    class at the end. *)
Lemma Object_new_heap c kwargs res s s1 :
  Object_new c kwargs s = (res, s1) ->
  heap s1 = heap s
  \/ (res = inr (length (heap s))
      /\ heap s1 = heap s ++ [mkInstance (cls_name c) ∅]).
Proof.
  destruct (kwargs !! "cls") as [v|] eqn:Hcls.
  { rewrite (Object_new_unbound _ _ _ v Hcls). intros [= _ <-]. left. reflexivity. }
  destruct (primary_key c) as [pk|] eqn:Hpk.
  - rewrite (Object_new_keyed c pk kwargs s Hpk Hcls). cbn zeta.
    destruct (cache_key pk kwargs) as [e|key].
    { intros [= _ <-]. left. apply with_instance_map_heap. }
    destruct (map_get key (instance_map c s)) as [e|[obj|]]; intros [= <- <-].
    + left. apply with_instance_map_heap.
    + left. apply with_instance_map_heap.
    + right. split; reflexivity.
  - rewrite (Object_new_unkeyed c kwargs s Hpk Hcls). intros [= <- <-].
    right. split; reflexivity.
Qed.

Lemma Object_init_length obj kwargs s res s' :
  Object_init obj kwargs s = (res, s') -> length (heap s') = length (heap s).
Proof.
  intros H. destruct (Object_init_cases _ _ _ _ _ H) as [-> | Hupd]; [reflexivity|].
  exact (dict_update_length _ _ _ _ _ Hupd).
Qed.

Lemma Object_update_length obj kwargs s res s' :
  Object_update obj kwargs s = (res, s') -> length (heap s') = length (heap s).
Proof.
  intros H. destruct (Object_update_cases _ _ _ _ _ H) as [-> | Hupd]; [reflexivity|].
  exact (dict_update_length _ _ _ _ _ Hupd).
Qed.

Lemma Object_init_keeps_instance obj kwargs s res s' r o :
  Object_init obj kwargs s = (res, s') ->
  heap s !! r = Some o ->
  exists o', heap s' !! r = Some o' /\ inst_class o' = inst_class o.
Proof.
  intros H Ho. destruct (Object_init_cases _ _ _ _ _ H) as [-> | Hupd]; [eauto|].
  exact (dict_update_keeps_instance _ _ _ _ _ _ _ Hupd Ho).
Qed.

Lemma Object_update_keeps_instance obj kwargs s res s' r o :
  Object_update obj kwargs s = (res, s') ->
  heap s !! r = Some o ->
  exists o', heap s' !! r = Some o' /\ inst_class o' = inst_class o.
Proof.
  intros H Ho. destruct (Object_update_cases _ _ _ _ _ H) as [-> | Hupd]; [eauto|].
  exact (dict_update_keeps_instance _ _ _ _ _ _ _ Hupd Ho).
Qed.

Lemma construct_keeps_instance c kwargs res s s' r o :
  construct c kwargs s = (res, s') ->
  heap s !! r = Some o ->
  length (heap s) <= length (heap s')
  /\ exists o', heap s' !! r = Some o' /\ inst_class o' = inst_class o.
Proof.
  unfold construct, bind. intros Hrun Ho.
  destruct (Object_new c kwargs s) as [[e|obj] s1] eqn:Hnew.
  - injection Hrun as _ <-.
    destruct (Object_new_heap _ _ _ _ _ Hnew) as [-> | [_ ->]].
    + eauto.
    + rewrite length_app. split; [lia|]. exists o. split; [|reflexivity].
      apply lookup_app_l_Some. exact Ho.
  - assert (Hs1 : length (heap s) <= length (heap s1) /\ heap s1 !! r = Some o).
    { destruct (Object_new_heap _ _ _ _ _ Hnew) as [-> | [_ ->]]; [auto|].
      rewrite length_app. split; [lia|]. apply lookup_app_l_Some. exact Ho. }
    destruct Hs1 as [Hlen Ho1].
    destruct (Object_init obj kwargs s1) as [[e|[]] s2] eqn:Hinit;
      injection Hrun as _ <-;
      rewrite (Object_init_length _ _ _ _ _ Hinit);
      (split; [exact Hlen|]);
      exact (Object_init_keeps_instance _ _ _ _ _ _ _ Hinit Ho1).
Qed.

Lemma step_keeps_instance s s' r o :
  step s s' ->
  heap s !! r = Some o ->
  exists o', heap s' !! r = Some o' /\ inst_class o' = inst_class o.
Proof.
  intros [c kwargs res s0 s1 Hc|obj kwargs res s0 s1 Hu] Ho.
  - exact (proj2 (construct_keeps_instance _ _ _ _ _ _ _ Hc Ho)).
  - exact (Object_update_keeps_instance _ _ _ _ _ _ _ Hu Ho).
Qed.

Lemma steps_keep_instance s s' r o :
  rtc step s s' ->
  heap s !! r = Some o ->
  exists o', heap s' !! r = Some o' /\ inst_class o' = inst_class o.
Proof.
  intros Hsteps. revert o. induction Hsteps as [s|s s1 s2 Hstep _ IH]; intros o Ho; [eauto|].
  destruct (step_keeps_instance _ _ _ _ Hstep Ho) as (o1 & Ho1 & Hc1).
  destruct (IH o1 Ho1) as (o2 & Ho2 & Hc2). exists o2. split; [exact Ho2|congruence].
Qed.

(** *** Well-formedness is kept *)

Lemma well_formed_empty : well_formed empty_store.
Proof.
  split.
  - intros c key r []. 
  - intros c. constructor.
Qed.

Lemma well_formed_same_entries s s' :
  (forall r o, heap s !! r = Some o ->
     exists o', heap s' !! r = Some o' /\ inst_class o' = inst_class o) ->
  (forall c, instance_map c s' = instance_map c s) ->
  well_formed s -> well_formed s'.
Proof.
  intros Hheap Hmaps [Hlive Hdist]. split.
  - intros c key r Hin. rewrite Hmaps in Hin.
    destruct (Hlive c key r Hin) as (o & Ho & Hc).
    destruct (Hheap r o Ho) as (o' & Ho' & Hc'). exists o'. split; [exact Ho'|congruence].
  - intros c. rewrite Hmaps. apply Hdist.
Qed.

Lemma instance_map_same_name c c' s :
  cls_name c = cls_name c' -> instance_map c s = instance_map c' s.
Proof. unfold instance_map. intros ->. reflexivity. Qed.

(** A new instance with a new entry for it keeps the store well formed. *)
Lemma well_formed_new_entry c key s :
  well_formed s ->
  well_formed
    (mkStore (heap s ++ [mkInstance (cls_name c) ∅])
       (<[cls_name c := instance_map c s ++ [(key, length (heap s))]]>
          (instance_maps (with_instance_map c s)))).
Proof.
  intros [Hlive Hdist]. split.
  - intros c' k r. rewrite instance_map_insert. simpl. case_decide as Hname.
    + intros Hin. apply in_app_or in Hin as [Hin|[[= <- <-]|[]]].
      * rewrite (instance_map_same_name c c' s Hname) in Hin.
        destruct (Hlive c' k r Hin) as (o & Ho & Hc). exists o. split; [|exact Hc].
        apply lookup_app_l_Some. exact Ho.
      * eexists. split; [apply list_lookup_middle; reflexivity|]. exact Hname.
    + rewrite with_instance_map_entries. intros Hin.
      destruct (Hlive c' k r Hin) as (o & Ho & Hc). exists o. split; [|exact Hc].
      apply lookup_app_l_Some. exact Ho.
  - intros c'. rewrite instance_map_insert. case_decide as Hname.
    + rewrite List.map_app. simpl. apply NoDup_ListNoDup, NoDup_app.
      split; [apply NoDup_ListNoDup, Hdist|]. split.
      * intros r Hr Hlast%list_elem_of_In. destruct Hlast as [Hlast|[]].
        apply list_elem_of_In in Hr.
        apply in_map_iff in Hr as ([k r'] & Hsnd & Hin). simpl in Hsnd. subst r' r.
        destruct (Hlive c k _ Hin) as (o & Ho & _).
        apply lookup_lt_Some in Ho. lia.
      * apply NoDup_singleton.
    + rewrite with_instance_map_entries. apply Hdist.
Qed.

Lemma Object_new_well_formed c kwargs res s s1 :
  well_formed s -> Object_new c kwargs s = (res, s1) -> well_formed s1.
Proof.
  intros Hwf. destruct (kwargs !! "cls") as [v|] eqn:Hcls.
  { rewrite (Object_new_unbound _ _ _ v Hcls). intros [= _ <-]. exact Hwf. }
  destruct (primary_key c) as [pk|] eqn:Hpk.
  - rewrite (Object_new_keyed c pk kwargs s Hpk Hcls). cbn zeta.
    assert (Hs0 : well_formed (with_instance_map c s)).
    { apply (well_formed_same_entries s); [|intros; apply with_instance_map_entries|exact Hwf].
      intros r o Ho. rewrite with_instance_map_heap. eauto. }
    destruct (cache_key pk kwargs) as [e|key]; [intros [= _ <-]; exact Hs0|].
    destruct (map_get key (instance_map c s)) as [e|[obj|]]; intros [= _ <-];
      [exact Hs0|exact Hs0|].
    apply well_formed_new_entry. exact Hwf.
  - rewrite (Object_new_unkeyed c kwargs s Hpk Hcls). intros [= _ <-].
    apply (well_formed_same_entries s); [|reflexivity|exact Hwf].
    intros r o Ho. exists o. split; [|reflexivity]. simpl.
    apply lookup_app_l_Some. exact Ho.
Qed.

Lemma dict_update_well_formed obj kwargs res s s' :
  well_formed s -> dict_update obj kwargs s = (res, s') -> well_formed s'.
Proof.
  intros Hwf Hupd. apply (well_formed_same_entries s); [| |exact Hwf].
  - intros r o Ho. exact (dict_update_keeps_instance _ _ _ _ _ _ _ Hupd Ho).
  - intros c. exact (dict_update_entries _ _ _ _ _ c Hupd).
Qed.

Lemma Object_init_well_formed obj kwargs res s s' :
  well_formed s -> Object_init obj kwargs s = (res, s') -> well_formed s'.
Proof.
  intros Hwf H. destruct (Object_init_cases _ _ _ _ _ H) as [-> | Hupd]; [exact Hwf|].
  exact (dict_update_well_formed _ _ _ _ _ Hwf Hupd).
Qed.

Lemma Object_update_well_formed obj kwargs res s s' :
  well_formed s -> Object_update obj kwargs s = (res, s') -> well_formed s'.
Proof.
  intros Hwf H. destruct (Object_update_cases _ _ _ _ _ H) as [-> | Hupd]; [exact Hwf|].
  exact (dict_update_well_formed _ _ _ _ _ Hwf Hupd).
Qed.

Lemma construct_well_formed c kwargs res s s' :
  well_formed s -> construct c kwargs s = (res, s') -> well_formed s'.
Proof.
  unfold construct, bind. intros Hwf Hrun.
  destruct (Object_new c kwargs s) as [[e|obj] s1] eqn:Hnew.
  - injection Hrun as _ <-. exact (Object_new_well_formed _ _ _ _ _ Hwf Hnew).
  - pose proof (Object_new_well_formed _ _ _ _ _ Hwf Hnew) as Hwf1.
    destruct (Object_init obj kwargs s1) as [[e|[]] s2] eqn:Hinit;
      injection Hrun as _ <-; exact (Object_init_well_formed _ _ _ _ _ Hwf1 Hinit).
Qed.

Lemma steps_well_formed s s' :
  rtc step s s' -> well_formed s -> well_formed s'.
Proof.
  induction 1 as [s|s s1 s2 Hstep _ IH]; [auto|]. intros Hwf. apply IH.
  destruct Hstep as [c kwargs res s0 s1' Hc|obj kwargs res s0 s1' Hu].
  - exact (construct_well_formed _ _ _ _ _ Hwf Hc).
  - exact (Object_update_well_formed _ _ _ _ _ Hwf Hu).
Qed.

(** *** New instances *)

(** A construction whose [__new__] allocated: the instance holds the
    attributes of the call and nothing else, and the instances that were
    there are untouched. *)
Lemma construct_allocated c kwargs s s1 :
  kwargs !! "self" = None ->
  Object_new c kwargs s = (inr (length (heap s)), s1) ->
  heap s1 = heap s ++ [mkInstance (cls_name c) ∅] ->
  exists s2,
    construct c kwargs s = (inr (length (heap s)), s2)
    /\ instance_maps s2 = instance_maps s1
    /\ length (heap s2) = S (length (heap s))
    /\ (forall k, getattr s2 (length (heap s)) k = kwargs !! k)
    /\ (forall r o, heap s !! r = Some o -> heap s2 !! r = Some o).
Proof.
  intros Hself Hnew Hheap. unfold construct, bind. rewrite Hnew.
  rewrite (Object_init_bound _ _ _ Hself), dict_update_heap. unfold ret.
  eexists. split; [reflexivity|].
  split; [reflexivity|].
  split; [simpl; rewrite length_alter, Hheap, length_app; simpl; lia|]. split.
  - intros k. unfold getattr. simpl. rewrite Hheap, list_lookup_alter_eq.
    rewrite list_lookup_middle by reflexivity. simpl.
    rewrite lookup_union, lookup_empty. destruct (kwargs !! k); reflexivity.
  - intros r o Ho. simpl. rewrite Hheap.
    rewrite list_lookup_alter_ne by (apply lookup_lt_Some in Ho; lia).
    apply lookup_app_l_Some. exact Ho.
Qed.

Lemma steps_heap_length s s' :
  rtc step s s' -> length (heap s) <= length (heap s').
Proof.
  induction 1 as [s|s s1 s2 Hstep _ IH]; [lia|].
  etransitivity; [|exact IH].
  destruct Hstep as [c kwargs res s0 s1' Hc|obj kwargs res s0 s1' Hu].
  - unfold construct, bind in Hc.
    destruct (Object_new c kwargs s0) as [[e|obj] s'] eqn:Hnew.
    + injection Hc as _ <-.
      destruct (Object_new_heap _ _ _ _ _ Hnew) as [-> | [_ ->]];
        rewrite ?length_app; lia.
    + assert (length (heap s0) <= length (heap s')).
      { destruct (Object_new_heap _ _ _ _ _ Hnew) as [-> | [_ ->]];
          rewrite ?length_app; lia. }
      destruct (Object_init obj kwargs s') as [[e|[]] s2'] eqn:Hinit;
        injection Hc as _ <-; rewrite (Object_init_length _ _ _ _ _ Hinit); lia.
  - rewrite (Object_update_length _ _ _ _ _ Hu). lia.
Qed.

(** X4: a model without a primary key, called with attributes none of
    which is named [cls] or [self], constructs a new instance every time:
    the construction succeeds, the instance is at a reference that was free,
    it holds the attributes of the call, the identity maps and the other
    instances are untouched, and no later construction of the model returns
    it again. *)
Theorem construct_unkeyed_fresh c kwargs s :
  primary_key c = None ->
  kwargs !! "cls" = None ->
  kwargs !! "self" = None ->
  exists s1,
    construct c kwargs s = (inr (length (heap s)), s1)
    /\ heap s !! length (heap s) = None
    /\ (forall k, getattr s1 (length (heap s)) k = kwargs !! k)
    /\ instance_maps s1 = instance_maps s
    /\ (forall r o, heap s !! r = Some o -> heap s1 !! r = Some o)
    /\ (forall s2 kwargs' r s3,
          rtc step s1 s2 -> construct c kwargs' s2 = (inr r, s3) ->
          r <> length (heap s)).
Proof.
  intros Hpk Hcls Hself.
  pose proof (Object_new_unkeyed c kwargs s Hpk Hcls) as Hnew.
  destruct (construct_allocated c kwargs s _ Hself Hnew eq_refl)
    as (s1 & Hc & Hmaps & Hlen1 & Hattr & Hold).
  exists s1. split; [exact Hc|]. split; [apply lookup_ge_None; lia|].
  split; [exact Hattr|]. split; [exact Hmaps|]. split; [exact Hold|].
  intros s2 kwargs' r s3 Hsteps Hc2.
  pose proof (steps_heap_length _ _ Hsteps) as Hlen2.
  destruct (construct_returned_bound _ _ _ _ _ Hc2) as [Hcls2 Hself2].
  revert Hc2. unfold construct, bind.
  rewrite (Object_new_unkeyed c kwargs' s2 Hpk Hcls2).
  rewrite (Object_init_bound _ _ _ Hself2), dict_update_heap. unfold ret.
  intros [= <- _]. lia.
Qed.

Lemma construct_unkeyed_fresh_witness :
  exists s1,
    construct UserTablesStats (kwargs_of [("table", VStr "options")]) empty_store
    = (inr 0, s1)
    /\ getattr s1 0 "table" = Some (VStr "options").
Proof.
  destruct (construct_unkeyed_fresh UserTablesStats
              (kwargs_of [("table", VStr "options")]) empty_store eq_refl eq_refl eq_refl)
    as (s1 & Hc & _ & Hattr & _).
  exists s1. split; [exact Hc|].
  etransitivity; [exact (Hattr "table")|]. vm_compute. reflexivity.
Defined.

(** A first construction on a key: a new instance, cached under the key. *)
Lemma construct_new_key_aux c pk kwargs key s :
  primary_key c = Some pk ->
  kwargs !! "cls" = None ->
  kwargs !! "self" = None ->
  cache_key pk kwargs = inr key ->
  map_get key (instance_map c s) = inr None ->
  exists s1,
    construct c kwargs s = (inr (length (heap s)), s1)
    /\ map_get key (instance_map c s1) = inr (Some (length (heap s))).
Proof.
  intros Hpk Hcls Hself Hkey Hget.
  pose proof (Object_new_keyed c pk kwargs s Hpk Hcls) as Hnew. cbn zeta in Hnew.
  rewrite Hkey, Hget in Hnew.
  destruct (construct_allocated c kwargs s _ Hself Hnew eq_refl) as (s1 & Hc & _).
  exists s1. split; [exact Hc|].
  destruct (construct_caches c pk kwargs s _ s1 key Hpk Hkey Hc) as [Hhash Hfind].
  apply map_get_Some. auto.
Qed.

(** X5: constructing a keyed model, from attributes none of which is
    named [cls] or [self], on a key that is not in its identity map succeeds
    with a new instance that holds the attributes of the call and nothing
    else; the key then leads to that instance, the instances that were there
    are untouched, and the maps of the other classes keep their entries. *)
Theorem construct_new_key c pk kwargs key s :
  primary_key c = Some pk ->
  kwargs !! "cls" = None ->
  kwargs !! "self" = None ->
  cache_key pk kwargs = inr key ->
  map_get key (instance_map c s) = inr None ->
  exists s1,
    construct c kwargs s = (inr (length (heap s)), s1)
    /\ heap s !! length (heap s) = None
    /\ (forall k, getattr s1 (length (heap s)) k = kwargs !! k)
    /\ map_get key (instance_map c s1) = inr (Some (length (heap s)))
    /\ (forall r o, heap s !! r = Some o -> heap s1 !! r = Some o)
    /\ (forall c', cls_name c' <> cls_name c -> instance_map c' s1 = instance_map c' s).
Proof.
  intros Hpk Hcls Hself Hkey Hget.
  pose proof (Object_new_keyed c pk kwargs s Hpk Hcls) as Hnew. cbn zeta in Hnew.
  rewrite Hkey, Hget in Hnew.
  destruct (construct_allocated c kwargs s _ Hself Hnew eq_refl)
    as (s1 & Hc & Hmaps & _ & Hattr & Hold).
  exists s1. split; [exact Hc|]. split; [apply lookup_ge_None; lia|].
  split; [exact Hattr|]. split; [|split; [exact Hold|]].
  - destruct (construct_caches c pk kwargs s _ s1 key Hpk Hkey Hc) as [Hhash Hfind].
    apply map_get_Some. auto.
  - intros c' Hne. unfold instance_map at 1. rewrite Hmaps. simpl.
    rewrite lookup_insert_ne by congruence.
    fold (instance_map c' (with_instance_map c s)). apply with_instance_map_entries.
Qed.

Lemma construct_new_key_witness :
  exists s1,
    construct RandomCoordinates (kwargs_of [("x", VInt 3); ("y", VInt (-4))]) empty_store
    = (inr 0, s1)
    /\ map_get [VInt 3; VInt (-4)] (instance_map RandomCoordinates s1) = inr (Some 0).
Proof.
  destruct (construct_new_key RandomCoordinates ["x"; "y"]
              (kwargs_of [("x", VInt 3); ("y", VInt (-4))]) [VInt 3; VInt (-4)] empty_store)
    as (s1 & Hc & _ & _ & Hget & _).
  - reflexivity.
  - vm_compute. reflexivity.
  - vm_compute. reflexivity.
  - vm_compute. reflexivity.
  - reflexivity.
  - exists s1. split; [exact Hc | exact Hget].
Defined.

(** X6: the identity maps never lose an entry and the heap never loses an
    instance: through any constructions and updates, a key that led to an
    instance still leads to it, and the instance is still there with the
    same class. *)
Theorem cache_never_evicts s s' c key r o :
  rtc step s s' ->
  map_get key (instance_map c s) = inr (Some r) ->
  heap s !! r = Some o ->
  map_get key (instance_map c s') = inr (Some r)
  /\ exists o', heap s' !! r = Some o' /\ inst_class o' = inst_class o.
Proof.
  intros Hsteps Hget Ho. apply map_get_Some in Hget as [Hhash Hfind]. split.
  - apply map_get_Some. split; [exact Hhash|].
    exact (steps_keep_entry s s' c key r Hsteps Hfind).
  - exact (steps_keep_instance s s' r o Hsteps Ho).
Qed.

Lemma cache_never_evicts_witness :
  map_get [VStr "first"]
    (instance_map Options
       (snd (construct UserTablesStats (kwargs_of [("table", VStr "options")])
               (snd (construct Options
                       (kwargs_of [("name", VStr "first"); ("value", VStr "one")])
                       empty_store)))))
  = inr (Some 0).
Proof.
  refine (proj1 (cache_never_evicts
                   (snd (construct Options
                           (kwargs_of [("name", VStr "first"); ("value", VStr "one")])
                           empty_store))
                   _ Options [VStr "first"] 0
                   (mkInstance "Options"
                      (kwargs_of [("name", VStr "first"); ("value", VStr "one")] ∪ ∅))
                   _ _ _)).
  - apply rtc_once.
    apply (step_construct UserTablesStats (kwargs_of [("table", VStr "options")])
             (inr 1)).
    vm_compute. reflexivity.
  - vm_compute. reflexivity.
  - reflexivity.
Defined.

Lemma cached_instance_live_aux s c key r :
  rtc step empty_store s ->
  map_get key (instance_map c s) = inr (Some r) ->
  exists o, heap s !! r = Some o /\ inst_class o = cls_name c.
Proof.
  intros Hsteps Hget.
  destruct (steps_well_formed _ _ Hsteps well_formed_empty) as [Hlive _].
  apply map_get_Some in Hget as [_ Hfind].
  destruct (map_find_In _ _ _ Hfind) as (k & Hin & _).
  exact (Hlive c k r Hin).
Qed.

(** X7: in every store the program can build from the empty one, a key
    found in the identity map of a class leads to a live instance of that
    class. *)
Theorem cached_instance_of_class s c key r :
  rtc step empty_store s ->
  map_get key (instance_map c s) = inr (Some r) ->
  exists o, heap s !! r = Some o /\ inst_class o = cls_name c.
Proof.
  exact (cached_instance_live_aux s c key r).
Qed.

(** X8: in every store the program can build from the empty one, an
    instance is cached under one class and one key only: two lookups that
    return the same instance are in maps of the same class, with keys that
    are equal. *)
Theorem cached_instance_one_key s c c' ka kb r :
  rtc step empty_store s ->
  map_get ka (instance_map c s) = inr (Some r) ->
  map_get kb (instance_map c' s) = inr (Some r) ->
  cls_name c = cls_name c' /\ tuple_eq ka kb = true.
Proof.
  intros Hsteps Ha Hb.
  destruct (steps_well_formed _ _ Hsteps well_formed_empty) as [Hlive Hdist].
  apply map_get_Some in Ha as [Hha Hfa]. apply map_get_Some in Hb as [Hhb Hfb].
  destruct (map_find_In _ _ _ Hfa) as (k1 & Hin1 & Heq1).
  destruct (map_find_In _ _ _ Hfb) as (k2 & Hin2 & Heq2).
  destruct (Hlive c k1 r Hin1) as (o1 & Ho1 & Hc1).
  destruct (Hlive c' k2 r Hin2) as (o2 & Ho2 & Hc2).
  assert (Hname : cls_name c = cls_name c') by congruence.
  split; [exact Hname|].
  rewrite <- (instance_map_same_name c c' s Hname) in Hin2.
  pose proof (NoDup_snd_same_key _ k1 k2 r (Hdist c) Hin1 Hin2) as <-.
  exact (tuple_eq_join ka kb k1 Hha Hhb Heq1 Heq2).
Qed.

Lemma cached_instance_of_class_witness :
  exists o,
    heap (snd (construct Options
                 (kwargs_of [("name", VStr "first"); ("value", VStr "one")]) empty_store))
      !! 0 = Some o
    /\ inst_class o = "Options".
Proof.
  apply (cached_instance_of_class _ Options [VStr "first"] 0).
  - apply rtc_once.
    apply (step_construct Options
             (kwargs_of [("name", VStr "first"); ("value", VStr "one")]) (inr 0)).
    apply surjective_pairing.
  - vm_compute. reflexivity.
Defined.

Lemma cached_instance_one_key_witness :
  cls_name RandomCoordinates = cls_name RandomCoordinates
  /\ tuple_eq [VInt 1; VInt 0] [VBool true; VBool false] = true.
Proof.
  apply (cached_instance_one_key
           (snd (construct RandomCoordinates
                   (kwargs_of [("x", VInt 1); ("y", VInt 0)]) empty_store))
           RandomCoordinates RandomCoordinates
           [VInt 1; VInt 0] [VBool true; VBool false] 0).
  - apply rtc_once.
    apply (step_construct RandomCoordinates
             (kwargs_of [("x", VInt 1); ("y", VInt 0)]) (inr 0)).
    apply surjective_pairing.
  - vm_compute. reflexivity.
  - vm_compute. reflexivity.
Defined.

(** X9: a keyed model whose key tuple holds a list or a dict cannot be
    constructed: hashing the key raises [TypeError], no instance is made and
    no entry is added to any identity map. *)
Theorem construct_unhashable_key c pk kwargs key s :
  primary_key c = Some pk ->
  cache_key pk kwargs = inr key ->
  tuple_hash_error key <> None ->
  exists msg s',
    construct c kwargs s = (inl (TypeError msg), s')
    /\ heap s' = heap s
    /\ forall c', instance_map c' s' = instance_map c' s.
Proof.
  intros Hpk Hkey Hhash.
  destruct (tuple_hash_error key) as [e|] eqn:He; [|congruence].
  assert (Hty : exists msg, e = TypeError msg).
  { clear -He. induction key as [|v key IH]; simpl in He; [discriminate|].
    destruct v; simpl in He; try (apply IH; exact He); injection He as <-; eauto. }
  destruct Hty as [msg ->]. destruct (kwargs !! "cls") as [v|] eqn:Hcls.
  - eexists _, s. unfold construct, bind. rewrite (Object_new_unbound _ _ _ v Hcls).
    unfold multiple_values. auto.
  - exists msg, (with_instance_map c s).
    unfold construct, bind. rewrite (Object_new_keyed c pk kwargs s Hpk Hcls). cbn zeta.
    rewrite Hkey. unfold map_get. rewrite He.
    repeat split; auto using with_instance_map_heap, with_instance_map_entries.
Qed.

Lemma construct_unhashable_key_witness :
  exists msg s',
    construct Options (kwargs_of [("name", VList [VStr "first"])]) empty_store
    = (inl (TypeError msg), s')
    /\ heap s' = heap empty_store
    /\ forall c', instance_map c' s' = instance_map c' empty_store.
Proof.
  apply (construct_unhashable_key Options ["name"]
           (kwargs_of [("name", VList [VStr "first"])]) [VList [VStr "first"]]).
  - reflexivity.
  - vm_compute. reflexivity.
  - discriminate.
Defined.

(** X10: [update] never moves an instance to another key.  After an
    update of a cached instance, whatever attributes it changed, the old key
    still leads to the instance, and constructing the model on a key that is
    not in the map, from attributes none of which is named [cls] or [self],
    makes a new instance, different from the updated one. *)
Theorem update_does_not_rekey c pk key obj kwargs s s1 b key' :
  rtc step empty_store s ->
  primary_key c = Some pk ->
  map_get key (instance_map c s) = inr (Some obj) ->
  Object_update obj kwargs s = (inr tt, s1) ->
  b !! "cls" = None ->
  b !! "self" = None ->
  cache_key pk b = inr key' ->
  map_get key' (instance_map c s) = inr None ->
  exists r s2,
    construct c b s1 = (inr r, s2)
    /\ r <> obj
    /\ map_get key (instance_map c s2) = inr (Some obj)
    /\ map_get key' (instance_map c s2) = inr (Some r).
Proof.
  intros Hsteps Hpk Hget Hupd Hcls Hself Hkey' Hget'.
  destruct (cached_instance_live_aux s c key obj Hsteps Hget) as (o & Ho & _).
  pose proof (Object_update_entries _ _ _ _ _ c Hupd) as Hmap1.
  pose proof (Object_update_length _ _ _ _ _ Hupd) as Hlen1.
  rewrite <- Hmap1 in Hget'.
  destruct (construct_new_key_aux c pk b key' s1 Hpk Hcls Hself Hkey' Hget')
    as (s2 & Hc & Hfound).
  exists (length (heap s1)), s2. split; [exact Hc|].
  split; [apply lookup_lt_Some in Ho; lia|]. split; [|exact Hfound].
  apply map_get_Some in Hget as [Hhash Hfind]. apply map_get_Some. split; [exact Hhash|].
  rewrite <- Hmap1 in Hfind. exact (construct_keeps_entry _ _ _ _ _ c key obj Hc Hfind).
Qed.

Lemma update_does_not_rekey_witness :
  exists r s2,
    construct Options (kwargs_of [("name", VStr "renamed")])
      (snd (Object_update 0 (kwargs_of [("name", VStr "renamed")])
              (snd (construct Options
                      (kwargs_of [("name", VStr "first"); ("value", VStr "one")])
                      empty_store))))
    = (inr r, s2)
    /\ r <> 0
    /\ map_get [VStr "first"] (instance_map Options s2) = inr (Some 0)
    /\ map_get [VStr "renamed"] (instance_map Options s2) = inr (Some r).
Proof.
  apply (update_does_not_rekey Options ["name"] [VStr "first"] 0
           (kwargs_of [("name", VStr "renamed")])
           (snd (construct Options
                   (kwargs_of [("name", VStr "first"); ("value", VStr "one")])
                   empty_store))
           _ (kwargs_of [("name", VStr "renamed")]) [VStr "renamed"]).
  - apply rtc_once.
    apply (step_construct Options
             (kwargs_of [("name", VStr "first"); ("value", VStr "one")]) (inr 0)).
    apply surjective_pairing.
  - reflexivity.
  - vm_compute. reflexivity.
  - apply surjective_pairing.
  - vm_compute. reflexivity.
  - vm_compute. reflexivity.
  - vm_compute. reflexivity.
  - vm_compute. reflexivity.
Defined.

End StoreFacts.

(** ** Rows and statements *)

Module GatewayMore.
Import Gateway GatewayFacts.

Local Open Scope nat_scope.
Local Open Scope list_scope.

(** X11: a decoded row maps a column name to the field at the last
    position where that name is paired with a field: with distinct names
    each name gets its own field, and when a name comes twice the later
    column wins. *)
Theorem named_row_last_wins (names : list string) (row : list Value) i n v :
  names !! i = Some n ->
  row !! i = Some v ->
  (forall j, i < j -> names !! j = Some n -> row !! j = None) ->
  named_row names row !! n = Some v.
Proof. unfold named_row. apply fold_put_last. Qed.

Lemma named_row_last_wins_witness :
  named_row ["name"; "value"; "name"] [VStr "first"; VStr "one"; VStr "second"] !! "name"
  = Some (VStr "second").
Proof.
  apply (named_row_last_wins ["name"; "value"; "name"]
           [VStr "first"; VStr "one"; VStr "second"] 2 "name" (VStr "second")).
  - reflexivity.
  - reflexivity.
  - intros j Hj _. apply lookup_ge_None. simpl. lia.
Defined.

(** X12: a decoded row has a name exactly when the name is paired with a
    field: names beyond the length of the row, and fields beyond the number
    of names, are dropped without an error. *)
Theorem named_row_names (names : list string) (row : list Value) n :
  is_Some (named_row names row !! n)
  <-> exists j v, names !! j = Some n /\ row !! j = Some v.
Proof. exact (named_row_paired names row n). Qed.

Section WithDriver.

Context {World Conn Cursor : Type}.
Variable drv : Driver World Conn Cursor.

Abbreviation no_connection := (RuntimeError "No database connection").

(** Destructs every driver call and connection test of the goal. *)
Ltac run_gateway :=
  repeat match goal with
         | |- context [match ?x with _ => _ end] =>
             lazymatch x with
             | context [match _ with _ => _ end] => fail
             | _ => destruct x eqn:?; simpl
             end
         end.

(** X13: [commit], [rollback], [execute], [get_one] and [get_all] never
    change the attributes of the gateway, whatever the driver does: the
    connection, the database and the user are those [initialize] stored. *)
Theorem operations_keep_attributes (q : Query) (s : State World Conn) :
  db (snd (commit drv s)) = db s
  /\ db (snd (rollback drv s)) = db s
  /\ db (snd (execute drv q s)) = db s
  /\ db (snd (get_one drv q s)) = db s
  /\ db (snd (get_all drv q s)) = db s.
Proof.
  unfold commit, rollback, execute, get_one, get_all, _get_cursor_for_query,
    _get_column_names_from_cursor, _get_connection, bind, lift, ret, raise.
  repeat split; run_gateway; reflexivity.
Qed.

(** X14: the driver is given the template and the arguments of the query
    as they are, and when it rejects the statement the error of the driver
    comes out of [execute], [get_one] and [get_all] unchanged, with the
    attributes of the gateway untouched. *)
Theorem statement_error_propagates (q : Query) (s : State World Conn) c cursor w1 code w2 :
  _connection (db s) = Some c ->
  conn_cursor drv c (world s) = (inr cursor, w1) ->
  cursor_execute drv cursor (query_string q) (args q) w1 = (inl code, w2) ->
  execute drv q s = (inl (DriverError code), mkState (db s) w2)
  /\ get_one drv q s = (inl (DriverError code), mkState (db s) w2)
  /\ get_all drv q s = (inl (DriverError code), mkState (db s) w2).
Proof.
  intros Hconn Hcur Hexec.
  assert (H : _get_cursor_for_query drv q s = (inl (DriverError code), mkState (db s) w2)).
  { unfold _get_cursor_for_query, bind, _get_connection, lift. rewrite Hconn. simpl.
    rewrite Hcur. simpl. rewrite Hexec. reflexivity. }
  unfold execute, get_one, get_all, bind. rewrite H. auto.
Qed.

(** X15: on a connected gateway, when the driver has made a cursor, run
    the template with the arguments of the query on it and fetched all
    rows, [get_all] returns one record per row, in the order of the rows,
    each with exactly the column names of [cursor.description] that come
    with a field, each with its field of the row; no row gives the empty
    list. *)
Theorem get_all_result (q : Query) (s : State World Conn) c cursor w1 w2 rows w3 :
  _connection (db s) = Some c ->
  conn_cursor drv c (world s) = (inr cursor, w1) ->
  cursor_execute drv cursor (query_string q) (args q) w1 = (inr tt, w2) ->
  cursor_fetchall drv cursor w2 = (inr rows, w3) ->
  exists records,
    get_all drv q s = (inr records, mkState (db s) w3)
    /\ length records = length rows
    /\ forall i fields,
         rows !! i = Some fields ->
         exists record,
           records !! i = Some record
           /\ RowDecoding.decoded
                (List.map name (cursor_description drv cursor w3)) fields record.
Proof.
  intros Hconn Hcur Hexec Hfetch.
  assert (Hrun : _get_cursor_for_query drv q s = (inr cursor, mkState (db s) w2)).
  { unfold _get_cursor_for_query, bind, _get_connection, lift.
    rewrite Hconn. simpl. rewrite Hcur. simpl. rewrite Hexec. reflexivity. }
  eexists. split; [|split].
  - unfold get_all, bind at 1. rewrite Hrun. unfold bind at 1, lift. cbn [world db].
    rewrite Hfetch. reflexivity.
  - unfold _populate_rows_with_names. apply length_map.
  - intros i fields Hi. eexists. split.
    + unfold _populate_rows_with_names.
      rewrite (list_lookup_fmap (named_row _) rows i), Hi. reflexivity.
    + apply named_row_decoded.
Qed.

(** X16: [commit] needs the connection that [initialize] makes.  Without a
    connection it raises the no-connection error and nothing changes; once
    [initialize] has connected, the gateway holds the connection the driver
    returned and the database and user given, and [commit] and [rollback]
    are the driver's on that connection. *)
Theorem initialize_then_commit (d u p h o : Value) (s : State World Conn) c w :
  _connection (db s) = None ->
  connect drv d u p h o (world s) = (inr c, w) ->
  commit drv s = (inl no_connection, s)
  /\ initialize drv d u p h o s = (inr tt, mkState (mkDatabase d u (Some c)) w)
  /\ commit drv (mkState (mkDatabase d u (Some c)) w)
     = lift (conn_commit drv c) (mkState (mkDatabase d u (Some c)) w)
  /\ rollback drv (mkState (mkDatabase d u (Some c)) w)
     = lift (conn_rollback drv c) (mkState (mkDatabase d u (Some c)) w).
Proof.
  intros Hnone Hconn. split; [|split; [|split]].
  - unfold commit, bind, _get_connection. rewrite Hnone. reflexivity.
  - unfold initialize, bind, lift. rewrite Hnone, Hconn. reflexivity.
  - reflexivity.
  - reflexivity.
Qed.

End WithDriver.

Lemma statement_error_propagates_witness :
  get_one
    (mkDriver canned_world unit unit
       (connect canned_driver) (conn_cursor canned_driver) (conn_commit canned_driver)
       (conn_rollback canned_driver)
       (fun _ _ _ w => (inl "relation does not exist", w))
       (cursor_fetchone canned_driver) (cursor_fetchall canned_driver)
       (cursor_description canned_driver))
    (mkQuery "DROP TABLE options" []) (connected (options_world true))
  = (inl (DriverError "relation does not exist"), connected (options_world true)).
Proof.
  refine (proj1 (proj2 (statement_error_propagates _ (mkQuery "DROP TABLE options" [])
                          (connected (options_world true)) tt tt (options_world true)
                          "relation does not exist" (options_world true) _ _ _)));
    reflexivity.
Defined.

Lemma get_all_result_witness :
  exists records record,
    get_all canned_driver (mkQuery "SELECT * FROM options ORDER BY LOWER(name)" [])
      (connected (options_world true))
    = (inr records, connected (mkCanned true [mkColumn "name" 25; mkColumn "value" 25] []))
    /\ length records = 1
    /\ records !! 0 = Some record
    /\ record !! "value" = Some (VStr "one").
Proof.
  destruct (get_all_result canned_driver
              (mkQuery "SELECT * FROM options ORDER BY LOWER(name)" [])
              (connected (options_world true)) tt tt
              (options_world true) (options_world true)
              [[VStr "first"; VStr "one"]]
              (mkCanned true [mkColumn "name" 25; mkColumn "value" 25] [])
              eq_refl eq_refl eq_refl eq_refl)
    as (records & Hget & Hlen & Hrows).
  destruct (Hrows 0 [VStr "first"; VStr "one"] eq_refl) as (record & Hrec & _ & Hfield).
  exists records, record. split; [exact Hget|]. split; [exact Hlen|].
  split; [exact Hrec|].
  apply (Hfield 1 "value" (VStr "one")); [reflexivity|reflexivity|].
  intros [|[|j]] Hj; [lia|lia|discriminate].
Defined.

Lemma initialize_then_commit_witness :
  commit canned_driver (unconnected (options_world true))
  = (inl (RuntimeError "No database connection"), unconnected (options_world true))
  /\ initialize canned_driver (VStr "database") (VStr "user") (VStr "password") VNone VNone
       (unconnected (options_world true))
     = (inr tt, connected (options_world true)).
Proof.
  destruct (initialize_then_commit canned_driver
              (VStr "database") (VStr "user") (VStr "password") VNone VNone
              (unconnected (options_world true)) tt (options_world true) eq_refl eq_refl)
    as (Hcommit & Hinit & _).
  split; [exact Hcommit | exact Hinit].
Defined.

End GatewayMore.

(** ** The models of the script *)

Module ScriptFacts.
Import Model Gateway Script ModelFacts StoreFacts.

Local Open Scope nat_scope.
Local Open Scope list_scope.

(** *** Constructing one instance per record *)

(** No field of the record is named [cls] or [self]. *)
Abbreviation bindable info :=
  ((info : gmap string Value) !! "cls" = None /\ (info : gmap string Value) !! "self" = None).

(** Every record binds and has a complete, hashable key for the model. *)
Abbreviation keyed_records pk infos :=
  (Forall (fun info : gmap string Value =>
             bindable info
             /\ exists key, cache_key pk info = inr key /\ tuple_hash_error key = None)
     infos).

Lemma construct_each_keyed c pk infos s :
  primary_key c = Some pk ->
  keyed_records pk infos ->
  exists objs s',
    construct_each c infos s = (inr objs, s')
    /\ rtc step s s'
    /\ length objs = length infos
    /\ forall i info key obj,
         infos !! i = Some info -> cache_key pk info = inr key -> objs !! i = Some obj ->
         map_get key (instance_map c s') = inr (Some obj).
Proof.
  intros Hpk Hall. revert s.
  induction Hall as [|info infos ([Hcls Hself] & key & Hkey & Hhash) _ IH]; intros s.
  - exists [], s. split; [reflexivity|]. split; [constructor|]. split; [reflexivity|].
    intros i ? ? ? Hi. destruct i; discriminate.
  - destruct (construct_keyed_succeeds c pk info key s Hpk Hcls Hself Hkey Hhash)
      as (r & s1 & Hc).
    destruct (IH s1) as (objs & s' & Heach & Hsteps & Hlen & Hfound).
    exists (r :: objs), s'. split; [|split; [|split]].
    + cbn [construct_each]. unfold bind at 1. rewrite Hc. unfold bind at 1.
      rewrite Heach. reflexivity.
    + eapply rtc_l; [|exact Hsteps]. exact (step_construct c info (inr r) s s1 Hc).
    + simpl. rewrite Hlen. reflexivity.
    + intros [|i] info' key' obj Hi Hk Ho.
      * injection Hi as <-. injection Ho as <-. rewrite Hkey in Hk. injection Hk as <-.
        destruct (construct_caches c pk info s r s1 key Hpk Hkey Hc) as [_ Hfind].
        apply map_get_Some. split; [exact Hhash|].
        exact (steps_keep_entry s1 s' c key r Hsteps Hfind).
      * exact (Hfound i info' key' obj Hi Hk Ho).
Qed.

Lemma construct_each_unkeyed c infos s :
  primary_key c = None ->
  Forall (fun info => bindable info) infos ->
  exists s',
    construct_each c infos s = (inr (seq (length (heap s)) (length infos)), s')
    /\ instance_maps s' = instance_maps s
    /\ (forall r o, heap s !! r = Some o -> heap s' !! r = Some o)
    /\ forall i info k,
         infos !! i = Some info -> getattr s' (length (heap s) + i) k = info !! k.
Proof.
  intros Hpk Hall. revert s.
  induction Hall as [|info infos [Hcls Hself] _ IH]; intros s.
  - exists s. split; [reflexivity|]. split; [reflexivity|]. split; [auto|].
    intros i ? ? Hi. destruct i; discriminate.
  - pose proof (Object_new_unkeyed c info s Hpk Hcls) as Hnew.
    destruct (construct_allocated c info s _ Hself Hnew eq_refl)
      as (s1 & Hc & Hmaps & Hlen & Hattr & Hold).
    destruct (IH s1) as (s' & Heach & Hmaps' & Hold' & Hattr').
    exists s'. split; [|split; [|split]].
    + cbn [construct_each]. unfold bind at 1. rewrite Hc. unfold bind at 1.
      rewrite Heach, Hlen. reflexivity.
    + rewrite Hmaps', Hmaps. reflexivity.
    + intros r o Ho. apply Hold', Hold, Ho.
    + intros [|i] info' k Hi.
      * injection Hi as <-. rewrite Nat.add_0_r.
        specialize (Hattr k). unfold getattr in *.
        destruct (heap s1 !! length (heap s)) as [o|] eqn:Ho.
        -- rewrite (Hold' _ _ Ho). exact Hattr.
        -- exfalso. apply lookup_ge_None in Ho. lia.
      * rewrite <- (Hattr' i info' k Hi), Hlen. f_equal. lia.
Qed.

Section WithDriver.

Context {World Conn Cursor : Type}.
Variable drv : Driver World Conn Cursor.

Abbreviation option_query name :=
  (mkQuery "SELECT * FROM options WHERE name = %(name)s" [VDict [("name", name)]]).
Abbreviation update_query name value :=
  (mkQuery "UPDATE options SET value = %(value)s WHERE name = %(name)s RETURNING *"
     [VDict [("name", name); ("value", value)]]).
Abbreviation all_options_query :=
  (mkQuery "SELECT * FROM options ORDER BY LOWER(name)" []).
Abbreviation stats_query :=
  (mkQuery
     "SELECT schemaname AS schema, relname AS table, seq_scan, idx_scan, now() as timestamp FROM pg_stat_user_tables"
     []).

(** [get_option], by what the gateway returns. *)
Lemma get_option_run (name : Value) (p : Program World Conn) :
  Options_get_option drv name p =
  match get_one drv (option_query name) (gateway p) with
  | (inl e, g) => (inl (Raised e), mkProgram (objects p) g)
  | (inr None, g) => (inr None, mkProgram (objects p) g)
  | (inr (Some info), g) =>
      if decide (info = ∅) then (inr None, mkProgram (objects p) g)
      else match construct Options info (objects p) with
           | (inl e, st) => (inl (Raised e), mkProgram st g)
           | (inr obj, st) => (inr (Some obj), mkProgram st g)
           end
  end.
Proof.
  unfold Options_get_option, and_then, of_result, pure, on_gateway. simpl.
  destruct (get_one drv (option_query name) (gateway p)) as [[e|[info|]] g];
    [reflexivity| |reflexivity].
  case_decide; [reflexivity|]. unfold on_objects. simpl.
  destruct (construct Options info (objects p)) as [[e|obj] st]; reflexivity.
Qed.

Lemma name_key (info : gmap string Value) (n : Value) :
  info !! "name" = Some n -> cache_key ["name"] info = inr [n] /\ info <> ∅.
Proof.
  intros Hn. split.
  - simpl. rewrite Hn. reflexivity.
  - intros ->. rewrite lookup_empty in Hn. discriminate.
Qed.

(** X17: when the statement of [get_option] matches no row, the method
    returns [None] and the instances and identity maps are as before: no
    instance is made and no entry is cached. *)
Theorem get_option_no_row (name : Value) (p : Program World Conn) g :
  get_one drv (option_query name) (gateway p) = (inr None, g) ->
  Options_get_option drv name p = (inr None, mkProgram (objects p) g).
Proof. intros Hget. rewrite get_option_run, Hget. reflexivity. Qed.

(** X18: two calls of [get_option] whose rows have the same [name] return
    the same instance, whatever constructions and updates happen between
    them, when the second row has no column named [cls] or [self]; after the
    second call the instance has the fields of the second row. *)
Theorem get_option_same_instance (n1 n2 key : Value) (p p1 p2 : Program World Conn)
    info1 info2 g1 g2 obj :
  rtc step empty_store (objects p) ->
  get_one drv (option_query n1) (gateway p) = (inr (Some info1), g1) ->
  info1 !! "name" = Some key ->
  Options_get_option drv n1 p = (inr (Some obj), p1) ->
  rtc step (objects p1) (objects p2) ->
  get_one drv (option_query n2) (gateway p2) = (inr (Some info2), g2) ->
  info2 !! "name" = Some key ->
  bindable info2 ->
  exists p3,
    Options_get_option drv n2 p2 = (inr (Some obj), p3)
    /\ gateway p3 = g2
    /\ forall k v, info2 !! k = Some v -> getattr (objects p3) obj k = Some v.
Proof.
  intros Hreach Hget1 Hk1 Hrun1 Hsteps Hget2 Hk2 [Hcls2 Hself2].
  destruct (name_key info1 key Hk1) as [Hkey1 Hne1].
  destruct (name_key info2 key Hk2) as [Hkey2 Hne2].
  rewrite get_option_run, Hget1, decide_False in Hrun1 by exact Hne1.
  destruct (construct Options info1 (objects p)) as [[e|r] st] eqn:Hc1; [discriminate|].
  injection Hrun1 as -> <-. simpl in Hsteps.
  destruct (construct_caches Options ["name"] info1 _ _ _ [key] eq_refl Hkey1 Hc1)
    as [Hhash Hfind].
  pose proof (steps_keep_entry _ _ Options [key] obj Hsteps Hfind) as Hfind2.
  assert (Hcached : map_get [key] (instance_map Options (objects p2)) = inr (Some obj))
    by (apply map_get_Some; auto).
  pose proof (construct_cached Options ["name"] info2 (objects p2) [key] obj
                eq_refl Hcls2 Hself2 Hkey2 Hcached) as Hc2.
  assert (Hreach2 : rtc step empty_store (objects p2)).
  { eapply rtc_trans; [exact Hreach|]. eapply rtc_l; [|exact Hsteps].
    exact (step_construct Options info1 (inr obj) _ _ Hc1). }
  destruct (cached_instance_live_aux _ Options [key] obj Hreach2 Hcached) as (o & Ho & _).
  eexists. split; [|split].
  - rewrite get_option_run, Hget2, decide_False by exact Hne2. rewrite Hc2. reflexivity.
  - reflexivity.
  - intros k v Hv. simpl.
    rewrite (getattr_dict_update obj info2 (objects p2) (inr tt) _ obj k (dict_update_heap _ _ _)).
    rewrite decide_True by reflexivity. rewrite Hv, Ho. reflexivity.
Qed.

(** [Options.update], by what the gateway returns. *)
Lemma Options_update_run (self : ref) (value n : Value) (p : Program World Conn) :
  getattr (objects p) self "name" = Some n ->
  Options_update drv self value p =
  match get_one drv (update_query n value) (gateway p) with
  | (inl e, g) => (inl (Raised e), mkProgram (objects p) g)
  | (inr None, g) =>
      (inl (Raised (TypeError "argument after ** must be a mapping, not NoneType")),
       mkProgram (objects p) g)
  | (inr (Some info), g) =>
      match Object_update self info (objects p) with
      | (inl e, st) => (inl (Raised e), mkProgram st g)
      | (inr _, st) => (inr tt, mkProgram st g)
      end
  end.
Proof.
  intros Hname. unfold Options_update, and_then at 1, attribute. rewrite Hname.
  unfold and_then, of_result, pure, on_gateway. simpl.
  destruct (get_one drv (update_query n value) (gateway p)) as [[e|[info|]] g];
    [reflexivity| |reflexivity].
  unfold on_objects. simpl.
  destruct (Object_update self info (objects p)) as [[e|[]] st]; reflexivity.
Qed.

(** X19: [Options.update] sends the name of the instance and the new
    value, and merges the row that comes back, when it has no column named
    [self], into the instance: every field of the row becomes an attribute,
    the other attributes keep their values, and the identity maps are
    untouched. *)
Theorem Options_update_merges_row (self : ref) (value n : Value) (p : Program World Conn)
    info g :
  getattr (objects p) self "name" = Some n ->
  get_one drv (update_query n value) (gateway p) = (inr (Some info), g) ->
  info !! "self" = None ->
  exists p',
    Options_update drv self value p = (inr tt, p')
    /\ gateway p' = g
    /\ (forall k v, info !! k = Some v -> getattr (objects p') self k = Some v)
    /\ (forall k, info !! k = None -> getattr (objects p') self k = getattr (objects p) self k)
    /\ instance_maps (objects p') = instance_maps (objects p).
Proof.
  intros Hname Hget Hself. rewrite (Options_update_run self value n p Hname), Hget.
  rewrite (Object_update_bound self info (objects p) Hself), dict_update_heap.
  eexists. split; [reflexivity|]. split; [reflexivity|].
  assert (Hlive : is_Some (heap (objects p) !! self)).
  { unfold getattr in Hname. destruct (heap (objects p) !! self); [eauto|discriminate]. }
  destruct Hlive as [o Ho].
  pose proof (dict_update_heap self info (objects p)) as Hupd.
  cbn [objects]. repeat split.
  - intros k v Hv. rewrite (getattr_dict_update _ _ _ _ _ self k Hupd).
    rewrite decide_True by reflexivity. rewrite Hv, Ho. reflexivity.
  - intros k Hk. rewrite (getattr_dict_update _ _ _ _ _ self k Hupd).
    rewrite decide_True by reflexivity. rewrite Hk. reflexivity.
Qed.

(** X20: [Options.update] fails without touching the instance in two
    cases.  When the instance has no [name], it raises [AttributeError] and
    nothing is sent to the gateway.  When the statement returns no row, it
    raises [TypeError] after the statement ran: the instances are as
    before. *)
Theorem Options_update_failures (self : ref) (value : Value) (p : Program World Conn) :
  (getattr (objects p) self "name" = None ->
   Options_update drv self value p = (inl (AttributeError "name"), p))
  /\ (forall n g,
        getattr (objects p) self "name" = Some n ->
        get_one drv (update_query n value) (gateway p) = (inr None, g) ->
        exists msg,
          Options_update drv self value p
          = (inl (Raised (TypeError msg)), mkProgram (objects p) g)).
Proof.
  split.
  - intros Hname. unfold Options_update, and_then at 1, attribute. rewrite Hname.
    reflexivity.
  - intros n g Hname Hget. rewrite (Options_update_run self value n p Hname), Hget.
    eauto.
Qed.

(** X21: [get_all_options] returns one instance per row, in the order of
    the rows, when every row has a hashable [name] and no column named [cls]
    or [self]; each instance is the one the identity map holds for the name
    of its row, so rows with the same name give the same instance. *)
Theorem get_all_options_instances (p : Program World Conn) infos g :
  get_all drv all_options_query (gateway p) = (inr infos, g) ->
  keyed_records ["name"] infos ->
  exists objs p',
    Options_get_all_options drv p = (inr objs, p')
    /\ gateway p' = g
    /\ length objs = length infos
    /\ forall i info n obj,
         infos !! i = Some info -> info !! "name" = Some n -> objs !! i = Some obj ->
         map_get [n] (instance_map Options (objects p')) = inr (Some obj).
Proof.
  intros Hget Hall.
  destruct (construct_each_keyed Options ["name"] infos (objects p) eq_refl Hall)
    as (objs & s' & Heach & _ & Hlen & Hfound).
  exists objs, (mkProgram s' g). split; [|split; [reflexivity|split; [exact Hlen|]]].
  - unfold Options_get_all_options, and_then, of_result, pure, on_gateway, on_objects.
    simpl. rewrite Hget. simpl. rewrite Heach. reflexivity.
  - intros i info n obj Hi Hn Ho. simpl.
    exact (Hfound i info [n] obj Hi (proj1 (name_key info n Hn)) Ho).
Qed.

(** X22: when no row has a column named [cls] or [self], [get_stats]
    makes one new instance per row, at the next free references in the order
    of the rows, each with the fields of its row as attributes; equal rows
    give different instances, the instances that were there are untouched
    and nothing is cached. *)
Theorem get_stats_fresh_instances (p : Program World Conn) infos g :
  get_all drv stats_query (gateway p) = (inr infos, g) ->
  Forall (fun info => bindable info) infos ->
  exists p',
    UserTablesStats_get_stats drv p
    = (inr (seq (length (heap (objects p))) (length infos)), p')
    /\ gateway p' = g
    /\ instance_maps (objects p') = instance_maps (objects p)
    /\ (forall r o, heap (objects p) !! r = Some o -> heap (objects p') !! r = Some o)
    /\ forall i info k,
         infos !! i = Some info ->
         getattr (objects p') (length (heap (objects p)) + i) k = info !! k.
Proof.
  intros Hget Hall.
  destruct (construct_each_unkeyed UserTablesStats infos (objects p) eq_refl Hall)
    as (s' & Heach & Hmaps & Hold & Hattr).
  exists (mkProgram s' g). split; [|split; [reflexivity|auto]].
  unfold UserTablesStats_get_stats, and_then, of_result, pure, on_gateway, on_objects.
  simpl. rewrite Hget. simpl. rewrite Heach. reflexivity.
Qed.

(** X23: [pick] does not depend on the order of its two points: the
    query carries the width and height of the rectangle they span, which are
    not negative, and its lower-left corner. *)
Theorem pick_symmetric (point1 point2 : Point) (p : Program World Conn) :
  RandomCoordinates_pick drv point1 point2 p = RandomCoordinates_pick drv point2 point1 p
  /\ pick_query point1 point2
     = inr (mkQuery
              "SELECT (RANDOM() * %(width)s + %(min_x)s)::int AS x, (RANDOM() * %(height)s + %(min_y)s)::int AS y;"
              [VDict [("width", VInt (Z.abs (x point1 - x point2)));
                      ("height", VInt (Z.abs (y point1 - y point2)));
                      ("min_x", VInt (Z.min (x point1) (x point2)));
                      ("min_y", VInt (Z.min (y point1) (y point2)))]]).
Proof.
  assert (Hq : forall a b, pick_query a b = pick_query b a).
  { intros a b. unfold pick_query.
    rewrite (Z.min_comm (x a)), (Z.min_comm (y a)), (Z.max_comm (x a)), (Z.max_comm (y a)).
    reflexivity. }
  split.
  - unfold RandomCoordinates_pick. rewrite (Hq point1 point2). reflexivity.
  - unfold pick_query, Query_init. simpl.
    replace (Z.max (x point1) (x point2) - Z.min (x point1) (x point2))%Z
      with (Z.abs (x point1 - x point2)) by lia.
    replace (Z.max (y point1) (y point2) - Z.min (y point1) (y point2))%Z
      with (Z.abs (y point1 - y point2)) by lia.
    reflexivity.
Qed.

End WithDriver.

(** *** On the canned driver *)

Abbreviation option_columns := [mkColumn "name" 25; mkColumn "value" 25].
Abbreviation program_with store rows :=
  (mkProgram store (connected (mkCanned true option_columns rows))).
Abbreviation first_one :=
  (kwargs_of [("name", VStr "first"); ("value", VStr "one")]).
Abbreviation two_firsts :=
  (program_with empty_store [[VStr "first"; VStr "one"]; [VStr "first"; VStr "The One"]]).

Lemma get_option_no_row_witness :
  Options_get_option canned_driver (VStr "sixth") (program_with empty_store [])
  = (inr None, program_with empty_store []).
Proof.
  apply (get_option_no_row canned_driver (VStr "sixth") (program_with empty_store [])).
  reflexivity.
Defined.

Lemma get_option_same_instance_witness :
  exists p3,
    Options_get_option canned_driver (VStr "first")
      (snd (Options_get_option canned_driver (VStr "first") two_firsts))
    = (inr (Some 0), p3)
    /\ gateway p3 = connected (mkCanned true option_columns [])
    /\ forall k v,
         named_row ["name"; "value"] [VStr "first"; VStr "The One"] !! k = Some v ->
         getattr (objects p3) 0 k = Some v.
Proof.
  apply (get_option_same_instance canned_driver (VStr "first") (VStr "first") (VStr "first")
           two_firsts
           (snd (Options_get_option canned_driver (VStr "first") two_firsts))
           (snd (Options_get_option canned_driver (VStr "first") two_firsts))
           (named_row ["name"; "value"] [VStr "first"; VStr "one"])
           (named_row ["name"; "value"] [VStr "first"; VStr "The One"])
           (connected (mkCanned true option_columns [[VStr "first"; VStr "The One"]]))
           (connected (mkCanned true option_columns []))
           0).
  - apply rtc_refl.
  - vm_compute. reflexivity.
  - vm_compute. reflexivity.
  - vm_compute. reflexivity.
  - apply rtc_refl.
  - vm_compute. reflexivity.
  - vm_compute. reflexivity.
  - split; vm_compute; reflexivity.
Defined.

Lemma Options_update_merges_row_witness :
  exists p',
    Options_update canned_driver 0 (VStr "The One")
      (program_with (snd (construct Options first_one empty_store))
         [[VStr "first"; VStr "The One"]])
    = (inr tt, p')
    /\ getattr (objects p') 0 "value" = Some (VStr "The One").
Proof.
  destruct (Options_update_merges_row canned_driver 0 (VStr "The One") (VStr "first")
              (program_with (snd (construct Options first_one empty_store))
                 [[VStr "first"; VStr "The One"]])
              (named_row ["name"; "value"] [VStr "first"; VStr "The One"])
              (connected (mkCanned true option_columns [])))
    as (p' & Hrun & _ & Hnew & _).
  - vm_compute. reflexivity.
  - vm_compute. reflexivity.
  - vm_compute. reflexivity.
  - exists p'. split; [exact Hrun|]. apply Hnew. vm_compute. reflexivity.
Defined.

Lemma Options_update_failures_witness :
  Options_update canned_driver 0 (VStr "The One") (program_with empty_store [])
  = (inl (AttributeError "name"), program_with empty_store [])
  /\ exists msg,
       Options_update canned_driver 0 (VStr "The One")
         (program_with (snd (construct Options first_one empty_store)) [])
       = (inl (Raised (TypeError msg)),
          program_with (snd (construct Options first_one empty_store)) []).
Proof.
  split.
  - apply (proj1 (Options_update_failures canned_driver 0 (VStr "The One")
                    (program_with empty_store []))).
    reflexivity.
  - apply (proj2 (Options_update_failures canned_driver 0 (VStr "The One")
                    (program_with (snd (construct Options first_one empty_store)) []))
             (VStr "first") (connected (mkCanned true option_columns []))).
    + vm_compute. reflexivity.
    + vm_compute. reflexivity.
Defined.

Lemma get_all_options_instances_witness :
  exists objs p',
    Options_get_all_options canned_driver
      (program_with empty_store
         [[VStr "first"; VStr "one"]; [VStr "second"; VStr "two"];
          [VStr "first"; VStr "uno"]])
    = (inr objs, p')
    /\ length objs = 3.
Proof.
  destruct (get_all_options_instances canned_driver
              (program_with empty_store
                 [[VStr "first"; VStr "one"]; [VStr "second"; VStr "two"];
                  [VStr "first"; VStr "uno"]])
              [named_row ["name"; "value"] [VStr "first"; VStr "one"];
               named_row ["name"; "value"] [VStr "second"; VStr "two"];
               named_row ["name"; "value"] [VStr "first"; VStr "uno"]]
              (connected (mkCanned true option_columns [])))
    as (objs & p' & Hrun & _ & Hlen & _).
  - reflexivity.
  - repeat constructor; try (vm_compute; reflexivity);
      eexists; (split; [vm_compute; reflexivity | reflexivity]).
  - exists objs, p'. split; [exact Hrun | exact Hlen].
Defined.

Lemma get_stats_fresh_instances_witness :
  exists p',
    UserTablesStats_get_stats canned_driver
      (program_with empty_store [[VStr "public"; VStr "options"]; [VStr "public"; VStr "options"]])
    = (inr [0; 1], p')
    /\ instance_maps (objects p') = ∅.
Proof.
  destruct (get_stats_fresh_instances canned_driver
              (program_with empty_store
                 [[VStr "public"; VStr "options"]; [VStr "public"; VStr "options"]])
              [named_row ["name"; "value"] [VStr "public"; VStr "options"];
               named_row ["name"; "value"] [VStr "public"; VStr "options"]]
              (connected (mkCanned true option_columns [])))
    as (p' & Hrun & _ & Hmaps & _).
  - reflexivity.
  - repeat constructor; vm_compute; reflexivity.
  - exists p'. split; [exact Hrun | exact Hmaps].
Defined.

(** *** Running a list of statements *)

Section Statements.

Context {World Conn Cursor : Type}.
Variable drv : Driver World Conn Cursor.

(** X24: the loop of [create_demo_table] stops at the first statement that
    fails: the failure comes out as it is, the program is left as that
    statement left it, and the statements after it are not run. *)
Theorem execute_each_stops (before rest : list Query) (q : Query)
    (p p1 p2 : Program World Conn) f :
  execute_each drv before p = (inr tt, p1) ->
  on_gateway (execute drv q) p1 = (inl f, p2) ->
  execute_each drv (before ++ q :: rest) p = (inl f, p2)
  /\ objects p2 = objects p.
Proof.
  revert p. induction before as [|q0 before IH]; intros p Hbefore Hfail.
  - injection Hbefore as <-. split.
    + cbn [app execute_each]. unfold and_then. rewrite Hfail. reflexivity.
    + revert Hfail. unfold on_gateway.
      destruct (execute drv q (gateway p)) as [[e|cursor] g]; intros [= _ <-]; reflexivity.
  - cbn [app execute_each] in *. unfold and_then in *.
    destruct (on_gateway (execute drv q0) p) as [[f0|cursor] p0] eqn:Hq0; [discriminate|].
    destruct (IH p0 Hbefore Hfail) as [Hrun Hobjects]. split; [exact Hrun|].
    rewrite Hobjects. revert Hq0. unfold on_gateway.
    destruct (execute drv q0 (gateway p)) as [[e|c] g]; intros [= _ <-]; reflexivity.
Qed.

End Statements.

Lemma execute_each_stops_witness :
  execute_each canned_driver
    ([] ++ mkQuery "DROP TABLE options" [] :: [mkQuery "DROP TABLE stats" []])
    (mkProgram empty_store (unconnected (options_world true)))
  = (inl (Raised (RuntimeError "No database connection")),
     mkProgram empty_store (unconnected (options_world true)))
  /\ objects (mkProgram empty_store (unconnected (options_world true))) = empty_store.
Proof.
  apply (execute_each_stops canned_driver [] [mkQuery "DROP TABLE stats" []]
           (mkQuery "DROP TABLE options" [])
           (mkProgram empty_store (unconnected (options_world true)))
           (mkProgram empty_store (unconnected (options_world true)))
           (mkProgram empty_store (unconnected (options_world true)))
           (Raised (RuntimeError "No database connection"))); reflexivity.
Defined.

End ScriptFacts.
